(** * tgModel: the composite model node of the tensegrity toolkit

    A shallow embedding of [src/core/tgModel.cpp].  Model objects live on
    a heap and refer to their children by raw pointer, so the embedding
    is a heap of nodes indexed by address, and every member function is a
    computation over that heap.  Recursion through child pointers is
    bounded by a fuel argument: the C++ recursion has no bound of its
    own (on a cyclic structure it never returns), and running out of
    fuel is reported as the outcome [Diverge].

    All objects are plain [tgModel] composites, so a virtual call on a
    child runs the function of this file.  [toString] and [operator<<]
    only format text and are left out. *)

From Stdlib Require Import SpecFloat.
From stdpp Require Import base option list gmap strings.

(** ** Data model *)

(** Addresses of heap-allocated [tgModel] objects. *)
Abbreviation addr := positive.

(** [tgModel*]: the null pointer or the address of an object. *)
Inductive ptr :=
  | NULL
  | Ptr (a : addr).

Global Instance ptr_eq_dec : EqDecision ptr.
Proof. solve_decision. Defined.

Definition is_null (p : ptr) : bool :=
  match p with NULL => true | Ptr _ => false end.

(** [tgTags] (from tgTaggable): a collection of labels. *)
Definition tgTags := list string.

(** Modelled from the spec: the class [abstractMarker] is declared in
    abstractMarker.h, which is not part of the sources at hand.  The spec
    describes a marker as an opaque payload with a tag set, copied as a
    plain value. *)
Record abstractMarker := mkMarker {
  payload : Z;
  marker_tags : tgTags
}.

(** The data members of a [tgModel] object. *)
Record tgModel := mkModel {
  m_children : list ptr;            (* std::vector<tgModel*> *)
  m_markers : list abstractMarker;  (* std::vector<abstractMarker> *)
  m_tags : tgTags                   (* inherited from tgTaggable *)
}.

(** [tgWorld], the simulation context handed to [setup]: opaque here. *)
Definition tgWorld := unit.

(** C++ [double], as an IEEE 754 binary64 value. *)
Definition double := spec_float.
Definition dzero : double := S754_zero false.

(** [a <= b] on doubles; false when either side is a NaN. *)
Definition double_le (a b : double) : bool := SFleb a b.
Definition double_lt (a b : double) : bool := SFltb a b.

(** Calls that collaborators can observe: [tgModelVisitor::render] on a
    node, and the invocation of [step] on a node (the instrumentation a
    test would use to count steps). *)
Inductive event :=
  | EvRender (p : ptr)
  | EvStep (p : ptr) (dt : double).

Record state := mkState {
  heap : gmap addr tgModel;
  trace : list event
}.

(** [std::invalid_argument] with its message. *)
Inductive exception :=
  | invalid_argument (what : string).

(** ** Computations *)

(** What a call can do: return, throw (the state is the one at the
    throw), fail an [assert], run into undefined behaviour (a null,
    dangling or out-of-range access), or never return. *)
Inductive outcome (A : Type) :=
  | Ok (a : A) (st : state)
  | Throw (e : exception) (st : state)
  | Abort
  | Undefined
  | Diverge.
Arguments Ok {A} a st.
Arguments Throw {A} e st.
Arguments Abort {A}.
Arguments Undefined {A}.
Arguments Diverge {A}.

Definition M (A : Type) : Type := state -> outcome A.

Definition ret {A} (a : A) : M A := fun st => Ok a st.

Definition bind {A B} (m : M A) (k : A -> M B) : M B :=
  fun st =>
    match m st with
    | Ok a st' => k a st'
    | Throw e st' => Throw e st'
    | Abort => Abort
    | Undefined => Undefined
    | Diverge => Diverge
    end.

Declare Scope cpp_scope.
Delimit Scope cpp_scope with cpp.
Notation "x <- c1 ;; c2" := (bind c1 (fun x => c2))
  (at level 100, c1 at next level, right associativity) : cpp_scope.
Notation "c1 ;; c2" := (bind c1 (fun _ => c2))
  (at level 100, right associativity) : cpp_scope.
Open Scope cpp_scope.

Definition throw {A} (e : exception) : M A := fun st => Throw e st.
Definition undefined {A} : M A := fun _ => Undefined.
Definition diverge {A} : M A := fun _ => Diverge.

(** [assert(b)] with assertions enabled. *)
Definition assert_ (b : bool) : M unit :=
  fun st => if b then Ok tt st else Abort.

Definition emit (e : event) : M unit :=
  fun st => Ok tt (mkState (heap st) (trace st ++ [e])).

(** Access to the object behind a pointer. *)
Definition deref (p : ptr) : M tgModel :=
  fun st =>
    match p with
    | NULL => Undefined
    | Ptr a =>
        match heap st !! a with
        | Some me => Ok me st
        | None => Undefined
        end
    end.

(** Overwrite the object behind a pointer. *)
Definition store (p : ptr) (me : tgModel) : M unit :=
  fun st =>
    match p with
    | NULL => Undefined
    | Ptr a =>
        match heap st !! a with
        | Some _ => Ok tt (mkState (<[a := me]> (heap st)) (trace st))
        | None => Undefined
        end
    end.

(** Release the storage of an object. *)
Definition free (a : addr) : M unit :=
  fun st =>
    match heap st !! a with
    | Some _ => Ok tt (mkState (delete a (heap st)) (trace st))
    | None => Undefined
    end.

(** [p->m_children[i]]: indexing a vector out of range is undefined. *)
Definition child_at (p : ptr) (i : nat) : M ptr :=
  me <- deref p;;
  match m_children me !! i with
  | Some c => ret c
  | None => undefined
  end.

(** [for (i = start; i < start + count; i++) body(i)] with the bound
    fixed before the loop. *)
Fixpoint for_range (count start : nat) (body : nat -> M unit) : M unit :=
  match count with
  | O => ret tt
  | S count' => body start;; for_range count' (S start) body
  end.

(** ** Member functions of tgModel *)

(** [bool tgModel::invariant() const] *)
Definition invariant (this : ptr) (st : state) : bool :=
  (* No child is NULL *)
  (* No child appears more than once in the tree *)
  true.

Definition assert_invariant (this : ptr) : M unit :=
  fun st => assert_ (invariant this st) st.

(** [new tgModel(tags)]: allocation at an unused address followed by the
    constructor, which only checks the invariant; [new tgModel()] is the
    same with no tags.  The object starts without children or markers. *)
Definition new_tgModel (tags : tgTags) : M ptr :=
  fun st =>
    let a := fresh (dom (heap st)) in
    (assert_invariant (Ptr a);; ret (Ptr a))
      (mkState (<[a := mkModel [] [] tags]> (heap st)) (trace st)).

(** [delete p]: the destructor [tgModel::~tgModel] deletes every child,
    then the storage of the object is released.  Deleting a null pointer
    does nothing. *)
Fixpoint delete_ (fuel : nat) (p : ptr) : M unit :=
  match fuel with
  | O => diverge
  | S fuel' =>
      match p with
      | NULL => ret tt
      | Ptr a =>
          me <- deref p;;
          let n := length (m_children me) in
          for_range n 0 (fun i =>
            pChild <- child_at p i;;
            assert_ (negb (is_null pChild));;
            delete_ fuel' pChild);;
          free a
      end
  end.

(** One level of [std::vector<tgModel*> tgModel::getDescendants() const]:
    the loop over the children, with the recursive call abstracted.  The
    function is const, so the children read at index [i] are those of the
    vector as it was on entry. *)
Fixpoint collect (rec : ptr -> M (list ptr)) (children : list ptr)
    (result : list ptr) : M (list ptr) :=
  match children with
  | [] => ret result
  | pChild :: rest =>
      assert_ (negb (is_null pChild));;
      cd <- rec pChild;;
      collect rec rest ((result ++ [pChild]) ++ cd)
  end.

Fixpoint getDescendants (fuel : nat) (this : ptr) : M (list ptr) :=
  match fuel with
  | O => diverge
  | S fuel' =>
      me <- deref this;;
      collect (getDescendants fuel') (m_children me) []
  end.

(** [void tgModel::setup(tgWorld& world)]: the loop bound is re-read at
    every iteration; the world is only handed on to the children. *)
Fixpoint setup_from (fuel : nat) (this : ptr) (world : tgWorld) (i : nat)
    : M unit :=
  match fuel with
  | O => diverge
  | S fuel' =>
      me <- deref this;;
      if decide (i < length (m_children me)) then
        c <- child_at this i;;
        setup_from fuel' c world 0;;
        setup_from fuel' this world (S i)
      else
        assert_invariant this
  end.

Definition setup (fuel : nat) (this : ptr) (world : tgWorld) : M unit :=
  setup_from fuel this world 0.

(** [void tgModel::teardown()]: [teardown_from fuel this i] is the
    execution from the loop test with loop counter [i]. *)
Fixpoint teardown_from (fuel : nat) (this : ptr) (i : nat) : M unit :=
  match fuel with
  | O => diverge
  | S fuel' =>
      me <- deref this;;
      if decide (i < length (m_children me)) then
        c <- child_at this i;;
        teardown_from fuel' c 0;;
        c' <- child_at this i;;
        delete_ fuel' c';;
        teardown_from fuel' this (S i)
      else
        me1 <- deref this;;
        store this (mkModel [] (m_markers me1) (m_tags me1));;
        me2 <- deref this;;
        store this (mkModel (m_children me2) [] (m_tags me2));;
        assert_invariant this;;
        me3 <- deref this;;
        assert_ (bool_decide (m_children me3 = []))
  end.

Definition teardown (fuel : nat) (this : ptr) : M unit :=
  teardown_from fuel this 0.

(** [void tgModel::step(double dt)]; the call is recorded in the trace
    as it is entered. *)
Fixpoint step (fuel : nat) (this : ptr) (dt : double) : M unit :=
  match fuel with
  | O => diverge
  | S fuel' =>
      me <- deref this;;
      emit (EvStep this dt);;
      (if double_le dt dzero then
         throw (invalid_argument "dt is not positive")
       else
         let n := length (m_children me) in
         for_range n 0 (fun i =>
           pChild <- child_at this i;;
           assert_ (negb (is_null pChild));;
           step fuel' pChild dt));;
      assert_invariant this
  end.

(** [void tgModel::onVisit(const tgModelVisitor& r) const]; the call
    [r.render( *this)] is recorded in the trace. *)
Fixpoint onVisit (fuel : nat) (this : ptr) : M unit :=
  match fuel with
  | O => diverge
  | S fuel' =>
      me <- deref this;;
      emit (EvRender this);;
      let n := length (m_children me) in
      for_range n 0 (fun i =>
        pChild <- child_at this i;;
        assert_ (negb (is_null pChild));;
        onVisit fuel' pChild);;
      assert_invariant this
  end.

(** [void tgModel::addChild(tgModel* pChild)]; [fuel] bounds the call of
    [getDescendants]. *)
Definition addChild (fuel : nat) (this : ptr) (pChild : ptr) : M unit :=
  deref this;;  (* the call needs a live receiver *)
  (if is_null pChild then
     throw (invalid_argument "child is NULL")
   else if decide (pChild = this) then
     throw (invalid_argument "child is this object")
   else
     descendants <- getDescendants fuel this;;
     if bool_decide (pChild ∈ descendants) then
       throw (invalid_argument "child is already a descendant")
     else ret tt);;
  me <- deref this;;
  store this (mkModel (m_children me ++ [pChild]) (m_markers me) (m_tags me));;
  assert_invariant this;;
  me' <- deref this;;
  assert_ (negb (bool_decide (m_children me' = [])));;
  assert_ (bool_decide (pChild ∈ m_children me')).

(** [const std::vector<abstractMarker>& tgModel::getMarkers() const] *)
Definition getMarkers (this : ptr) : M (list abstractMarker) :=
  me <- deref this;;
  ret (m_markers me).

(** [void tgModel::addMarker(abstractMarker a)]: the argument is passed
    by value and [push_back] stores a copy of it. *)
Definition addMarker (this : ptr) (a : abstractMarker) : M unit :=
  me <- deref this;;
  store this (mkModel (m_children me) (m_markers me ++ [a]) (m_tags me)).

(** Where a marker object is stored: in the [m_markers] vector of a
    model, or in the vector [myMarkers] that is local to one call of
    [getSenseableDescendants]. *)
Inductive marker_place :=
  | InModel (owner : addr) (k : nat)
  | InLocal (k : nat).

(** [tgSenseable*]: a model, or a marker at some place. *)
Inductive senseable_ptr :=
  | SModel (p : ptr)
  | SMarker (at_ : marker_place).

(** [std::vector<tgSenseable*> tgModel::getSenseableDescendants() const].
    [myMarkers] is a copy of the marker vector, local to the call, and
    the pointers pushed are the addresses of its elements.  The text
    written to [std::cout] is not part of the model. *)
Definition getSenseableDescendants (fuel : nat) (this : ptr)
    : M (list senseable_ptr) :=
  myDescendants <- getDescendants fuel this;;
  let mySenseableDescendants := map SModel myDescendants in
  myMarkers <- getMarkers this;;
  let pointersToMarkers :=
    imap (fun k (_ : abstractMarker) => SMarker (InLocal k)) myMarkers in
  ret (mySenseableDescendants ++ pointersToMarkers).

(** The marker behind a [tgSenseable*] once the call that produced it
    has returned: the local vector of that call no longer exists. *)
Definition marker_behind (st : state) (s : senseable_ptr)
    : option abstractMarker :=
  match s with
  | SModel _ => None
  | SMarker (InModel a k) => me ← heap st !! a; m_markers me !! k
  | SMarker (InLocal _) => None
  end.

(** ** Client code *)

(** A caller of [addMarker] that keeps the marker in a variable of its
    own: the variable and the state the models live in. *)
Record caller := mkCaller {
  var_marker : abstractMarker;
  models : state
}.

(** [this->addMarker(m)], with [m] the caller's variable. *)
Definition call_addMarker (this : ptr) (c : caller) : outcome caller :=
  match addMarker this (var_marker c) (models c) with
  | Ok _ st' => Ok (mkCaller (var_marker c) st') st'
  | Throw e st' => Throw e st'
  | Abort => Abort
  | Undefined => Undefined
  | Diverge => Diverge
  end.

(** [m = v]: the caller overwrites its own variable. *)
Definition assign_marker (v : abstractMarker) (c : caller) : caller :=
  mkCaller v (models c).

(** ** Tree-shaped ownership *)

(** The ownership structure the data model asks for: a finite tree of
    addresses, children in insertion order. *)
Inductive tree :=
  | Node (a : addr) (kids : list tree).

Definition root (t : tree) : addr := match t with Node a _ => a end.
Definition kids (t : tree) : list tree := match t with Node _ ts => ts end.

(** The strict descendants in the words of the spec: for each child in
    order, the child, then that child's own descendants, before the next
    sibling. *)
Fixpoint descendants (t : tree) : list addr :=
  match t with
  | Node _ ts => concat (map (fun c => root c :: descendants c) ts)
  end.

(** Every node of the subtree, the receiver first. *)
Definition nodes (t : tree) : list addr := root t :: descendants t.

Fixpoint height (t : tree) : nat :=
  match t with
  | Node _ ts => S (max_list (map height ts))
  end.

Fixpoint size (t : tree) : nat :=
  match t with
  | Node _ ts => S (sum_list (map size ts))
  end.

(** Every subtree, the tree itself first. *)
Fixpoint subtrees (t : tree) : list tree :=
  match t with
  | Node a ts => Node a ts :: concat (map subtrees ts)
  end.

Definition child_ptrs (ts : list tree) : list ptr :=
  map (fun c => Ptr (root c)) ts.

(** [shaped h t]: in heap [h], the object at the root of [t] exists and
    its children vector holds exactly the roots of the subtrees of [t],
    and so on downwards. *)
Fixpoint shaped (h : gmap addr tgModel) (t : tree) : bool :=
  match t with
  | Node a ts =>
      match h !! a with
      | Some me =>
          bool_decide (m_children me = child_ptrs ts) && forallb (shaped h) ts
      | None => false
      end
  end.

(** No object occurs twice in the tree: every node has one owner. *)
Definition single_owner (t : tree) : bool := bool_decide (NoDup (nodes t)).

(** ** Observations *)

(** The events of a [step] call, and of a visit, on a list of nodes. *)
Definition step_events (dt : double) (l : list addr) : list event :=
  map (fun a => EvStep (Ptr a) dt) l.

Definition render_events (l : list addr) : list event :=
  map (fun a => EvRender (Ptr a)) l.

(** The result of [getSenseableDescendants] in the words of the spec:
    the strict descendants in their order, then every marker the
    receiver owns, in insertion order. *)
Definition senseable_as_specified (t : tree) (me : tgModel)
    : list senseable_ptr :=
  map SModel (map Ptr (descendants t)) ++
  imap (fun k (_ : abstractMarker) => SMarker (InModel (root t) k))
       (m_markers me).

(** Whether a call ended in a throw. *)
Definition is_throw {A} (o : outcome A) : bool :=
  match o with Throw _ _ => true | _ => false end.

(** [heap_kept h o]: if the call ended, by return or by throw, it ended
    with heap [h]. *)
Definition heap_kept {A} (h : gmap addr tgModel) (o : outcome A) : Prop :=
  match o with
  | Ok _ st | Throw _ st => heap st = h
  | _ => True
  end.

(** A node after [teardown]: no children, no markers, tags kept. *)
Definition cleared (me : tgModel) : tgModel := mkModel [] [] (m_tags me).

(** ** Worked scenarios *)

(** A root with three children, the first of which has a child of its
    own; the root carries one marker. *)
Definition demo_tree : tree :=
  Node 1 [Node 2 [Node 5 []]; Node 3 []; Node 4 []].

Definition demo_state : state :=
  mkState
    (<[1%positive := mkModel [Ptr 2; Ptr 3; Ptr 4] [mkMarker 7 []] []]>
       (<[2%positive := mkModel [Ptr 5] [] []]>
          (<[3%positive := mkModel [] [] []]>
             (<[4%positive := mkModel [] [] []]>
                (<[5%positive := mkModel [] [mkMarker 9 []] []]> ∅)))))
    [].

(** The scenario of the spec: root R (1) with child A (2), A with child
    B (3), and a marker M1 on R. *)
Definition scenario_state : state :=
  mkState
    (<[1%positive := mkModel [Ptr 2] [mkMarker 1 []] []]>
       (<[2%positive := mkModel [Ptr 3] [] []]>
          (<[3%positive := mkModel [] [] []]> ∅)))
    [].

Definition scenario_tree : tree := Node 1 [Node 2 [Node 3 []]].

(** The same scenario, built through the public operations from an
    empty state. *)
Definition build_scenario : M (ptr * ptr * ptr) :=
  r <- new_tgModel [];;
  a <- new_tgModel [];;
  b <- new_tgModel [];;
  addChild 3 r a;;
  addChild 3 a b;;
  addMarker r (mkMarker 1 []);;
  ret (r, a, b).

(** A state that breaks both conditions named in [invariant]: node 1
    has a null child and holds node 2 twice. *)
Definition broken_state : state :=
  mkState
    (<[1%positive := mkModel [NULL; Ptr 2; Ptr 2] [] []]>
       (<[2%positive := mkModel [] [] []]> ∅))
    [].

(** The doubles [1.0] and [-0.5]. *)
Definition one : double := S754_finite false 4503599627370496 (-52).
Definition minus_half : double := S754_finite true 4503599627370496 (-53).

(** ** Textual dump *)

Section Printing.

(** [operator<<] for [tgTags] is declared in tgTags.h and the default
    value of the [prefix] argument of [toString] in tgModel.h; neither
    is part of the sources at hand, so both are parameters here. *)
Variable show_tags : tgTags -> string.
Variable default_prefix : string.

(** [std::endl], as far as the text goes. *)
Definition endl : string := String (Ascii.ascii_of_nat 10) EmptyString.

(** The loop of [toString]: the dump of each child, at the deeper
    prefix, followed by [std::endl], appended to [os].  The function is
    const, so the children are those of the vector on entry. *)
Fixpoint toString_children (rec : ptr -> string -> M string)
    (children : list ptr) (prefix : string) (os : string) : M string :=
  match children with
  | [] => ret os
  | c :: rest =>
      s <- rec c prefix;;
      toString_children rec rest prefix ((os +:+ s) +:+ endl)
  end.

(** [std::string tgModel::toString(std::string prefix) const] *)
Fixpoint toString (fuel : nat) (this : ptr) (prefix : string) : M string :=
  match fuel with
  | O => diverge
  | S fuel' =>
      me <- deref this;;
      let p := "  " in
      let os := "" in
      let os := ((os +:+ prefix) +:+ "tgModel(") +:+ endl in
      let os := (((os +:+ prefix) +:+ p) +:+ "Children:") +:+ endl in
      os <- toString_children (toString fuel') (m_children me)
              (prefix +:+ p) os;;
      let os := (((((os +:+ prefix) +:+ p) +:+ "Tags: [") +:+
                   show_tags (m_tags me)) +:+ "]") +:+ endl in
      let os := (os +:+ prefix) +:+ ")" in
      ret os
  end.

(** [std::ostream& operator<<(std::ostream& os, const tgModel& obj)],
    with the stream given by the text written to it so far. *)
Definition stream_out (fuel : nat) (os : string) (obj : ptr) : M string :=
  s <- toString fuel obj default_prefix;;
  ret ((os +:+ s) +:+ endl).

(** The lines of the dump of a tree, read from the heap: a header, the
    label of the children block, the lines of each child two spaces
    deeper, the tags, the closing parenthesis. *)
Fixpoint dump_lines (h : gmap addr tgModel) (t : tree) (prefix : string)
    : list string :=
  match t with
  | Node a ts =>
      [prefix +:+ "tgModel("; prefix +:+ "  Children:"] ++
      concat (map (fun c => dump_lines h c (prefix +:+ "  ")) ts) ++
      [prefix +:+ "  Tags: [" +:+
         match h !! a with
         | Some me => show_tags (m_tags me)
         | None => ""
         end +:+ "]";
       prefix +:+ ")"]
  end.

(** Each line followed by a newline. *)
Definition unlines (ls : list string) : string :=
  foldr (fun l acc => l +:+ endl +:+ acc) "" ls.

End Printing.

(** ** Growing a tree *)

(** The tree after [tc] has been attached as the last child of [t]. *)
Definition attach (t tc : tree) : tree := Node (root t) (kids t ++ [tc]).

(** A two-node cycle: what [addChild] leaves behind when node 2, a child
    of node 1, accepts node 1 as its own child. *)
Definition cycle_state : state :=
  mkState
    (<[1%positive := mkModel [Ptr 2] [] []]>
       (<[2%positive := mkModel [Ptr 1] [] []]> ∅))
    [].

(** A node whose first child is null. *)
Definition null_child_state : state :=
  mkState
    (<[1%positive := mkModel [NULL; Ptr 2] [] []]>
       (<[2%positive := mkModel [] [] []]> ∅))
    [].

(** Tags printed as their labels between spaces. *)
Definition show_labels (tags : tgTags) : string := String.concat " " tags.

(** * Properties *)

(** ** Sequencing *)

Lemma bind_Ok {A B} (m : M A) (k : A -> M B) st a st' :
  m st = Ok a st' -> (x <- m;; k x) st = k a st'.
Proof. intros H. unfold bind. now rewrite H. Qed.

(** [run H]: step over the first call of a sequence, given its result. *)
Ltac run H := rewrite (bind_Ok _ _ _ _ _ H).

Lemma deref_Ok a me st :
  heap st !! a = Some me -> deref (Ptr a) st = Ok me st.
Proof. intros H. unfold deref. now rewrite H. Qed.

Lemma child_at_Ok a me i c st :
  heap st !! a = Some me -> m_children me !! i = Some c ->
  child_at (Ptr a) i st = Ok c st.
Proof.
  intros Ha Hi. unfold child_at.
  run (deref_Ok _ _ _ Ha). now rewrite Hi.
Qed.

Lemma double_lt_not_le dt :
  double_lt dzero dt = true -> double_le dt dzero = false.
Proof.
  unfold double_lt, double_le, dzero, SFltb, SFleb.
  destruct dt as [s | s | | s m e]; try destruct s; simpl; congruence.
Qed.

(** ** Trees in the heap *)

Lemma shaped_inv h a ts :
  shaped h (Node a ts) = true ->
  exists me, h !! a = Some me /\ m_children me = child_ptrs ts /\
             Forall (fun c => shaped h c = true) ts.
Proof.
  simpl. destruct (h !! a) as [me|]; [|discriminate].
  intros [Hc Hts]%andb_prop. exists me. split; [done|]. split.
  - now apply bool_decide_eq_true in Hc.
  - apply Forall_forall. intros c Hc'. rewrite forallb_forall in Hts.
    apply Hts. now apply list_elem_of_In.
Qed.

Lemma shaped_root h t :
  shaped h t = true -> exists me, h !! root t = Some me /\
                                   m_children me = child_ptrs (kids t).
Proof.
  destruct t as [a ts]. intros (me & ? & ? & _)%shaped_inv. now exists me.
Qed.

Lemma height_kid c ts n :
  c ∈ ts -> max_list (map height ts) <= n -> height c <= n.
Proof.
  intros Hc Hn. etransitivity; [|exact Hn].
  apply max_list_elem_of_le. now apply list_elem_of_fmap_2.
Qed.

Lemma height_pos t : 1 <= height t.
Proof. destruct t; simpl; lia. Qed.

Lemma size_pos t : 1 <= size t.
Proof. destruct t; simpl; lia. Qed.

Lemma elem_of_concat_map {A B} (f : A -> list B) c ts b :
  c ∈ ts -> b ∈ f c -> b ∈ concat (map f ts).
Proof.
  induction ts as [|c' ts IH]; intros Hc Hb; [now apply elem_of_nil in Hc|].
  simpl. apply elem_of_app. apply elem_of_cons in Hc as [->|Hc]; auto.
Qed.

Lemma elem_of_concat_map_inv {A B} (f : A -> list B) ts b :
  b ∈ concat (map f ts) -> exists c, c ∈ ts /\ b ∈ f c.
Proof.
  induction ts as [|c' ts IH]; simpl; intros Hb; [now apply elem_of_nil in Hb|].
  apply elem_of_app in Hb as [Hb|Hb].
  - exists c'. split; [apply elem_of_cons; now left|done].
  - destruct (IH Hb) as (c & Hc & Hbc). exists c. split; [|done].
    apply elem_of_cons. now right.
Qed.

Lemma nodes_Node a ts : nodes (Node a ts) = a :: concat (map nodes ts).
Proof. reflexivity. Qed.

Lemma nodes_kids a c ts b :
  b ∈ nodes (Node a (c :: ts)) <-> b = a \/ b ∈ nodes c \/ b ∈ concat (map nodes ts).
Proof.
  rewrite nodes_Node. cbn [map concat]. now rewrite elem_of_cons, elem_of_app.
Qed.

(** Only the part of the heap under the tree matters for its shape. *)
Lemma shaped_agree h h' t :
  (forall a, a ∈ nodes t -> h' !! a = h !! a) ->
  shaped h t = true -> shaped h' t = true.
Proof.
  revert t. fix IH 1. intros [a ts] Hag Hs.
  destruct (shaped_inv _ _ _ Hs) as (me & Ha & Hc & Hts).
  simpl. rewrite (Hag a), Ha by (rewrite nodes_Node; apply elem_of_cons; now left).
  apply andb_true_intro. split; [now apply bool_decide_eq_true|].
  clear Ha Hc Hs. induction ts as [|c ts IHts]; [done|].
  inversion Hts as [|? ? Hc' Hts']; subst. simpl.
  apply andb_true_intro. split.
  - apply IH; [|done]. intros b Hb. apply Hag, nodes_kids. auto.
  - apply IHts; [|done]. intros b Hb. apply Hag, nodes_kids.
    rewrite nodes_Node in Hb. apply elem_of_cons in Hb as [->|Hb]; auto.
Qed.

(** ** getDescendants *)

Lemma collect_shaped rec st ts acc :
  (forall c, c ∈ ts -> rec (Ptr (root c)) st = Ok (map Ptr (descendants c)) st) ->
  collect rec (child_ptrs ts) acc st =
    Ok (acc ++ map Ptr (concat (map (fun c => root c :: descendants c) ts))) st.
Proof.
  revert acc. induction ts as [|c ts IH]; intros acc Hrec; simpl.
  - unfold ret. now rewrite app_nil_r.
  - unfold bind at 1. simpl.
    run (Hrec c ltac:(set_solver)).
    rewrite IH by (intros; apply Hrec; set_solver).
    f_equal. rewrite map_app. simpl. now rewrite <- !app_assoc.
Qed.

Lemma getDescendants_shaped fuel t st :
  shaped (heap st) t = true -> height t <= fuel ->
  getDescendants fuel (Ptr (root t)) st = Ok (map Ptr (descendants t)) st.
Proof.
  revert t. induction fuel as [|fuel IH]; intros [a ts] Hs Hh.
  - simpl in Hh. lia.
  - destruct (shaped_inv _ _ _ Hs) as (me & Ha & Hc & Hts).
    simpl. run (deref_Ok _ _ _ Ha). rewrite Hc.
    rewrite collect_shaped; [done|].
    intros c Hin. apply IH.
    + rewrite Forall_forall in Hts. now apply Hts.
    + simpl in Hh. apply (height_kid c ts); [done|lia].
Qed.

(** A call of [getDescendants] that returns leaves the state as it was. *)
Lemma collect_pure rec :
  (forall p st r st', rec p st = Ok r st' -> st' = st) ->
  forall cs acc st r st', collect rec cs acc st = Ok r st' -> st' = st.
Proof.
  intros Hrec cs. induction cs as [|c cs IH]; intros acc st r st'; simpl.
  - unfold ret. congruence.
  - unfold bind, assert_. destruct (negb (is_null c)); [|discriminate].
    destruct (rec c st) as [cd st1| | | |] eqn:E; try discriminate.
    apply Hrec in E. subst st1. apply IH.
Qed.

Lemma getDescendants_pure fuel p st r st' :
  getDescendants fuel p st = Ok r st' -> st' = st.
Proof.
  revert p st r st'. induction fuel as [|fuel IH]; intros p st r st'; simpl.
  - discriminate.
  - unfold bind at 1. destruct (deref p st) as [me st1| | | |] eqn:E; try discriminate.
    assert (st1 = st) as ->.
    { unfold deref in E. destruct p; [discriminate|].
      destruct (heap st !! a); congruence. }
    now apply collect_pure.
Qed.

(** ** Loops over the children *)

(** The loop shared by [step] and [onVisit]: a call [f] on every child,
    by index, when each call returns, keeps the heap and extends the
    trace by [g]. *)
Lemma for_range_children (f : ptr -> M unit) (g : tree -> list event)
    a me h pre suf tr :
  h !! a = Some me -> m_children me = child_ptrs (pre ++ suf) ->
  (forall c tr', c ∈ suf ->
     f (Ptr (root c)) (mkState h tr') = Ok tt (mkState h (tr' ++ g c))) ->
  for_range (length suf) (length pre)
    (fun i => pChild <- child_at (Ptr a) i;;
              assert_ (negb (is_null pChild));; f pChild) (mkState h tr)
  = Ok tt (mkState h (tr ++ concat (map g suf))).
Proof.
  intros Ha. revert pre tr.
  induction suf as [|c suf IH]; intros pre tr Hc Hf; simpl.
  - unfold ret. now rewrite app_nil_r.
  - assert (m_children me !! length pre = Some (Ptr (root c))) as Hi.
    { rewrite Hc. unfold child_ptrs. rewrite map_app. simpl.
      rewrite <- (length_map (fun c0 => Ptr (root c0)) pre).
      apply list_lookup_middle. done. }
    unfold bind at 1.
    run (child_at_Ok a me _ _ (mkState h tr) Ha Hi).
    unfold bind at 1. simpl.
    rewrite Hf by (apply elem_of_cons; now left).
    specialize (IH (pre ++ [c]) (tr ++ g c)).
    rewrite length_app in IH. simpl in IH.
    replace (length pre + 1) with (S (length pre)) in IH by lia.
    rewrite IH.
    + now rewrite <- app_assoc.
    + now rewrite <- app_assoc.
    + intros c' tr' Hin. apply Hf. apply elem_of_cons. now right.
Qed.

(** ** step *)

Lemma step_rejects fuel a me dt st :
  heap st !! a = Some me -> double_le dt dzero = true ->
  step (S fuel) (Ptr a) dt st =
    Throw (invalid_argument "dt is not positive")
          (mkState (heap st) (trace st ++ [EvStep (Ptr a) dt])).
Proof.
  intros Ha Hdt. simpl.
  run (deref_Ok _ _ _ Ha).
  unfold bind, emit. simpl. now rewrite Hdt.
Qed.

Lemma step_shaped fuel t dt h tr :
  shaped h t = true -> height t <= fuel -> double_le dt dzero = false ->
  step fuel (Ptr (root t)) dt (mkState h tr) =
    Ok tt (mkState h (tr ++ step_events dt (nodes t))).
Proof.
  intros Hs Hh Hdt. revert t tr Hs Hh.
  induction fuel as [|fuel IH]; intros [a ts] tr Hs Hh.
  - simpl in Hh. lia.
  - destruct (shaped_inv _ _ _ Hs) as (me & Ha & Hc & Hts).
    simpl. run (deref_Ok a me (mkState h tr) Ha).
    unfold bind at 1. unfold emit at 1. simpl. rewrite Hdt.
    unfold bind at 1. rewrite Hc. unfold child_ptrs at 1. rewrite length_map.
    rewrite (for_range_children (fun p => step fuel p dt)
               (fun c => step_events dt (nodes c)) a me h [] ts); [| done | done |].
    + unfold assert_invariant, assert_, invariant. simpl. f_equal. f_equal.
      rewrite <- app_assoc. f_equal. cbn [app]. f_equal.
      unfold step_events. rewrite concat_map, map_map. reflexivity.
    + intros c tr' Hin. apply IH.
      * rewrite Forall_forall in Hts. now apply Hts.
      * simpl in Hh. apply (height_kid c ts); [done|lia].
Qed.

(** With a [dt] that passes the test, no call of [step] throws,
    whatever the children point to. *)
Lemma bind_no_throw {A B} (m : M A) (k : A -> M B) st :
  is_throw (m st) = false ->
  (forall a st1, m st = Ok a st1 -> is_throw (k a st1) = false) ->
  is_throw ((x <- m;; k x) st) = false.
Proof.
  intros Hm Hk. unfold bind. destruct (m st) eqn:E; try done. now apply Hk.
Qed.

Lemma for_range_no_throw body :
  (forall i st, is_throw (body i st) = false) ->
  forall n i st, is_throw (for_range n i body st) = false.
Proof.
  intros Hbody n. induction n as [|n IH]; intros i st; simpl; [done|].
  apply bind_no_throw; [apply Hbody|]. intros _ st1 _. apply IH.
Qed.

Lemma deref_no_throw p st : is_throw (deref p st) = false.
Proof. unfold deref. destruct p; [done|]. now destruct (heap st !! a). Qed.

Lemma child_at_no_throw p i st : is_throw (child_at p i st) = false.
Proof.
  unfold child_at. apply bind_no_throw; [apply deref_no_throw|].
  intros me st1 _. now destruct (m_children me !! i).
Qed.

Lemma assert_no_throw b st : is_throw (assert_ b st) = false.
Proof. unfold assert_. now destruct b. Qed.

Lemma step_no_throw dt :
  double_le dt dzero = false ->
  forall fuel this st, is_throw (step fuel this dt st) = false.
Proof.
  intros Hdt fuel. induction fuel as [|fuel IH]; intros this st; [done|].
  simpl. rewrite Hdt.
  apply bind_no_throw; [apply deref_no_throw|]. intros me st1 _.
  apply bind_no_throw; [done|]. intros _ st2 _.
  apply bind_no_throw; [|intros; apply assert_no_throw].
  apply for_range_no_throw. intros i st3.
  apply bind_no_throw; [apply child_at_no_throw|]. intros c st4 _.
  apply bind_no_throw; [apply assert_no_throw|]. intros _ st5 _. apply IH.
Qed.

(** A call of [step] that ends, by return or by throw, ends with the
    heap it started with: the composite has nothing of its own to
    advance. *)
Lemma bind_heap_kept {A B} h (m : M A) (k : A -> M B) st :
  heap_kept h (m st) ->
  (forall a st1, heap st1 = h -> heap_kept h (k a st1)) ->
  heap_kept h ((x <- m;; k x) st).
Proof.
  intros Hm Hk. unfold bind. destruct (m st) eqn:E; try done.
  now apply Hk.
Qed.

Lemma for_range_heap_kept h body :
  (forall i st, heap st = h -> heap_kept h (body i st)) ->
  forall n i st, heap st = h -> heap_kept h (for_range n i body st).
Proof.
  intros Hbody n. induction n as [|n IH]; intros i st Hst; simpl; [done|].
  apply bind_heap_kept; [now apply Hbody|]. intros _ st1 Hst1. now apply IH.
Qed.

Lemma deref_heap_kept p st : heap_kept (heap st) (deref p st).
Proof. unfold deref. destruct p; [done|]. now destruct (heap st !! a). Qed.

Lemma child_at_heap_kept p i st : heap_kept (heap st) (child_at p i st).
Proof.
  unfold child_at. apply bind_heap_kept; [apply deref_heap_kept|].
  intros me st1 Hst1. now destruct (m_children me !! i).
Qed.

Lemma assert_heap_kept b st : heap_kept (heap st) (assert_ b st).
Proof. unfold assert_. now destruct b. Qed.

Lemma step_heap_kept dt fuel :
  forall this st, heap_kept (heap st) (step fuel this dt st).
Proof.
  induction fuel as [|fuel IH]; intros this st; [done|]. simpl.
  apply bind_heap_kept; [apply deref_heap_kept|]. intros me st1 H1.
  apply bind_heap_kept; [done|]. intros _ st2 H2.
  apply bind_heap_kept.
  - destruct (double_le dt dzero); [done|].
    apply for_range_heap_kept; [|done]. intros i st3 H3.
    apply bind_heap_kept; [rewrite <- H3; apply child_at_heap_kept|].
    intros c st4 H4.
    apply bind_heap_kept; [rewrite <- H4; apply assert_heap_kept|].
    intros _ st5 H5. rewrite <- H5. apply IH.
  - intros _ st3 H3. unfold assert_invariant. rewrite <- H3.
    apply assert_heap_kept.
Qed.

(** ** onVisit *)

Lemma onVisit_shaped fuel t h tr :
  shaped h t = true -> height t <= fuel ->
  onVisit fuel (Ptr (root t)) (mkState h tr) =
    Ok tt (mkState h (tr ++ render_events (nodes t))).
Proof.
  revert t tr. induction fuel as [|fuel IH]; intros [a ts] tr Hs Hh.
  - simpl in Hh. lia.
  - destruct (shaped_inv _ _ _ Hs) as (me & Ha & Hc & Hts).
    simpl. run (deref_Ok a me (mkState h tr) Ha).
    unfold bind at 1. unfold emit at 1. simpl.
    unfold bind at 1. rewrite Hc. unfold child_ptrs at 1. rewrite length_map.
    rewrite (for_range_children (onVisit fuel)
               (fun c => render_events (nodes c)) a me h [] ts); [| done | done |].
    + unfold assert_invariant, assert_, invariant. simpl. f_equal. f_equal.
      rewrite <- app_assoc. f_equal. cbn [app]. f_equal.
      unfold render_events. rewrite concat_map, map_map. reflexivity.
    + intros c tr' Hin. apply IH.
      * rewrite Forall_forall in Hts. now apply Hts.
      * simpl in Hh. apply (height_kid c ts); [done|lia].
Qed.

(** ** teardown *)

Lemma delete_leaf fuel a me h tr :
  h !! a = Some me -> m_children me = [] ->
  delete_ (S fuel) (Ptr a) (mkState h tr) = Ok tt (mkState (delete a h) tr).
Proof.
  intros Ha Hc. simpl.
  run (deref_Ok a me (mkState h tr) Ha).
  rewrite Hc. simpl. unfold bind, ret, free. simpl. now rewrite Ha.
Qed.

(** Leaving the loop of [teardown]: both vectors are cleared. *)
Lemma teardown_exit fuel a me i h tr :
  h !! a = Some me -> length (m_children me) <= i ->
  teardown_from (S fuel) (Ptr a) i (mkState h tr) =
    Ok tt (mkState (<[a := cleared me]> h) tr).
Proof.
  intros Ha Hi. simpl.
  run (deref_Ok a me (mkState h tr) Ha).
  destruct (decide (i < length (m_children me))) as [Hlt|_]; [lia|].
  run (deref_Ok a me (mkState h tr) Ha).
  unfold bind, store, deref, assert_invariant, assert_, invariant. simpl.
  rewrite Ha. simpl. rewrite lookup_insert_eq. simpl.
  rewrite lookup_insert_eq, insert_insert_eq. simpl.
  rewrite lookup_insert_eq. simpl. reflexivity.
Qed.

(** The loop of [teardown] on a node whose remaining children [suf] are
    the roots of disjoint trees: it returns, the node ends up cleared,
    every object of the remaining subtrees is released and nothing else
    is touched. *)
Lemma teardown_loop fuel :
  forall a me pre suf h tr,
    h !! a = Some me -> m_children me = child_ptrs (pre ++ suf) ->
    Forall (fun c => shaped h c = true) suf ->
    NoDup (a :: concat (map nodes suf)) ->
    S (sum_list (map size suf)) <= fuel ->
    exists h',
      teardown_from fuel (Ptr a) (length pre) (mkState h tr) =
        Ok tt (mkState h' tr) /\
      h' !! a = Some (cleared me) /\
      (forall b, b ∈ concat (map nodes suf) -> h' !! b = None) /\
      (forall b, b <> a -> b ∉ concat (map nodes suf) -> h' !! b = h !! b).
Proof.
  induction fuel as [|fuel IH]; intros a me pre suf h tr Ha Hc Hsh Hnd Hfuel;
    [lia|].
  destruct suf as [|c suf].
  - exists (<[a := cleared me]> h). split; [|split; [|split]].
    + apply teardown_exit; [done|]. rewrite Hc, app_nil_r.
      unfold child_ptrs. now rewrite length_map.
    + apply lookup_insert_eq.
    + intros b Hb. simpl in Hb. now apply elem_of_nil in Hb.
    + intros b Hb _. now apply lookup_insert_ne.
  - cbn [map concat sum_list] in *.
    apply NoDup_cons in Hnd as [Hna Hnd].
    apply NoDup_app in Hnd as (Hndc & Hdisj & Hndsuf).
    apply not_elem_of_app in Hna as [Hnac Hnasuf].
    inversion Hsh as [|? ? Hshc Hshsuf]; subst.
    destruct c as [ac cts]. pose proof Hshc as Hshc'.
    apply shaped_inv in Hshc' as (mc & Hac & Hcc & Hshk).
    rewrite nodes_Node in Hnac, Hndc, Hdisj.
    assert (a <> ac) as Hne by (intros ->; apply Hnac, elem_of_cons; now left).
    simpl in Hfuel.
    (* the child's own teardown *)
    destruct (IH ac mc [] cts h tr Hac Hcc Hshk Hndc ltac:(lia))
      as (h1 & Hrun1 & Hac1 & Hgone1 & Hframe1).
    assert (h1 !! a = Some me) as Ha1.
    { rewrite Hframe1; [done|done|].
      intros Hin. apply Hnac, elem_of_cons. now right. }
    assert (m_children me !! length pre = Some (Ptr ac)) as Hi.
    { rewrite Hc. unfold child_ptrs. rewrite map_app. simpl.
      rewrite <- (length_map (fun c0 => Ptr (root c0)) pre).
      now apply list_lookup_middle. }
    (* the rest of the loop, after the child is deleted *)
    destruct (IH a me (pre ++ [Node ac cts]) suf (delete ac h1) tr) as
      (h' & Hrun & Ha' & Hgone & Hframe).
    { now rewrite lookup_delete_ne. }
    { now rewrite <- app_assoc. }
    { apply Forall_forall. intros c' Hc'.
      apply (shaped_agree h); [|rewrite Forall_forall in Hshsuf; now apply Hshsuf].
      intros b Hb.
      assert (b ∈ concat (map nodes suf)) as Hbs.
      { now apply (elem_of_concat_map nodes c'). }
      assert (b ∉ ac :: concat (map nodes cts)) as Hbc
        by (intros Hin; exact (Hdisj b Hin Hbs)).
      apply not_elem_of_cons in Hbc as [Hb1 Hb2].
      rewrite lookup_delete_ne by done. apply Hframe1; [|done].
      intros ->. done. }
    { apply NoDup_cons. split; done. }
    { lia. }
    exists h'. split; [|split; [|split]].
    + simpl.
      run (deref_Ok a me (mkState h tr) Ha).
      destruct (decide (length pre < length (m_children me))) as [_|Hge].
      2:{ exfalso. apply Hge. apply lookup_lt_is_Some. eauto. }
      run (child_at_Ok a me _ _ (mkState h tr) Ha Hi).
      change 0 with (length (@nil tree)).
      run Hrun1.
      run (child_at_Ok a me _ _ (mkState h1 tr) Ha1 Hi).
      destruct fuel as [|fuel']; [lia|].
      run (delete_leaf fuel' ac (cleared mc) h1 tr Hac1 eq_refl).
      rewrite length_app in Hrun. simpl in Hrun.
      replace (length pre + 1) with (S (length pre)) in Hrun by lia.
      exact Hrun.
    + done.
    + intros b Hb. apply elem_of_app in Hb as [Hb|Hb]; [|now apply Hgone].
      assert (b ∉ concat (map nodes suf)) as Hbs by (now apply Hdisj).
      assert (b <> a) as Hba by (intros ->; now apply Hnac).
      rewrite Hframe by done.
      apply elem_of_cons in Hb as [->|Hb]; [apply lookup_delete_eq|].
      assert (b <> ac) as Hbac.
      { intros ->. apply NoDup_cons in Hndc as [Hn _]. done. }
      rewrite lookup_delete_ne by done. now apply Hgone1.
    + intros b Hba Hb. apply not_elem_of_app in Hb as [Hb1 Hb2].
      apply not_elem_of_cons in Hb1 as [Hb1 Hb1'].
      rewrite Hframe by done. rewrite lookup_delete_ne by done.
      now apply Hframe1.
Qed.

Lemma teardown_tree fuel t h tr :
  shaped h t = true -> single_owner t = true -> size t <= fuel ->
  exists h' me,
    h !! root t = Some me /\
    teardown fuel (Ptr (root t)) (mkState h tr) = Ok tt (mkState h' tr) /\
    h' !! root t = Some (cleared me) /\
    (forall b, b ∈ descendants t -> h' !! b = None) /\
    (forall b, b ∉ nodes t -> h' !! b = h !! b).
Proof.
  intros Hs Hnd Hfuel. destruct t as [a ts].
  apply bool_decide_eq_true in Hnd.
  destruct (shaped_inv _ _ _ Hs) as (me & Ha & Hc & Hts).
  destruct (teardown_loop fuel a me [] ts h tr Ha Hc Hts Hnd Hfuel)
    as (h' & Hrun & Ha' & Hgone & Hframe).
  exists h', me. repeat split; try done.
  intros b Hb. rewrite nodes_Node in Hb.
  apply not_elem_of_cons in Hb as [Hb1 Hb2]. now apply Hframe.
Qed.

(** ** addChild *)

Lemma addChild_run fuel a me c ds st :
  heap st !! a = Some me ->
  getDescendants fuel (Ptr a) st = Ok ds st ->
  addChild fuel (Ptr a) c st =
    if is_null c then Throw (invalid_argument "child is NULL") st
    else if decide (c = Ptr a) then
      Throw (invalid_argument "child is this object") st
    else if bool_decide (c ∈ ds) then
      Throw (invalid_argument "child is already a descendant") st
    else
      Ok tt (mkState
               (<[a := mkModel (m_children me ++ [c]) (m_markers me) (m_tags me)]>
                  (heap st))
               (trace st)).
Proof.
  intros Ha Hds. unfold addChild.
  run (deref_Ok _ _ _ Ha).
  unfold bind at 1.
  destruct (is_null c) eqn:Hnull; [done|].
  destruct (decide (c = Ptr a)) as [Heq|Hneq]; [done|].
  run Hds.
  destruct (bool_decide (c ∈ ds)) eqn:Hin; [done|].
  unfold ret.
  run (deref_Ok _ _ _ Ha).
  unfold bind, store, assert_invariant, assert_, invariant, deref. simpl.
  rewrite Ha. simpl. rewrite lookup_insert_eq. simpl.
  rewrite bool_decide_eq_false_2 by (intros H; now apply app_nil in H as [_ ?]).
  simpl. rewrite bool_decide_eq_true_2; [done|].
  apply elem_of_app. right. apply elem_of_cons. now left.
Qed.

(** ** getSenseableDescendants *)

Lemma getSenseableDescendants_shaped fuel t me st :
  shaped (heap st) t = true -> height t <= fuel ->
  heap st !! root t = Some me ->
  getSenseableDescendants fuel (Ptr (root t)) st =
    Ok (map SModel (map Ptr (descendants t)) ++
        imap (fun k _ => SMarker (InLocal k)) (m_markers me)) st.
Proof.
  intros Hs Hh Ha. unfold getSenseableDescendants.
  run (getDescendants_shaped _ _ _ Hs Hh).
  unfold getMarkers, bind, ret, deref. now rewrite Ha.
Qed.


Lemma getSenseableDescendants_no_markers fuel t me st :
  shaped (heap st) t = true -> height t <= fuel ->
  heap st !! root t = Some me -> m_markers me = [] ->
  getSenseableDescendants fuel (Ptr (root t)) st =
    Ok (senseable_as_specified t me) st.
Proof.
  intros Hs Hh Ha Hm.
  rewrite (getSenseableDescendants_shaped fuel t me st Hs Hh Ha).
  unfold senseable_as_specified. now rewrite Hm.
Qed.

(** ** Subtrees *)

Lemma tree_induction (P : tree -> Prop) :
  (forall a ts, Forall P ts -> P (Node a ts)) -> forall t, P t.
Proof.
  intros H. fix IH 1. intros [a ts]. apply H.
  induction ts as [|c ts IHts]; constructor; [apply IH|exact IHts].
Qed.

Lemma subtrees_Node a ts s :
  s ∈ subtrees (Node a ts) <->
  s = Node a ts \/ exists c, c ∈ ts /\ s ∈ subtrees c.
Proof.
  simpl. rewrite elem_of_cons. split; intros [Hs|Hs]; auto; right.
  - now apply elem_of_concat_map_inv.
  - destruct Hs as (c & Hc & Hs). now apply (elem_of_concat_map subtrees c).
Qed.

Lemma subtree_shaped h t s :
  shaped h t = true -> s ∈ subtrees t -> shaped h s = true.
Proof.
  revert s. induction t as [a ts IH] using tree_induction.
  intros s Hs [->|(c & Hc & Hin)]%subtrees_Node; [done|].
  apply shaped_inv in Hs as (_ & _ & _ & Hts).
  rewrite Forall_forall in IH, Hts. apply (IH c); auto.
Qed.

Lemma subtree_nodes t s b :
  s ∈ subtrees t -> b ∈ nodes s -> b ∈ nodes t.
Proof.
  revert s. induction t as [a ts IH] using tree_induction.
  intros s [->|(c & Hc & Hin)]%subtrees_Node Hb; [done|].
  rewrite Forall_forall in IH. rewrite nodes_Node. apply elem_of_cons. right.
  apply (elem_of_concat_map nodes c); [done|]. now apply (IH c Hc s).
Qed.

Lemma subtree_height t s : s ∈ subtrees t -> height s <= height t.
Proof.
  revert s. induction t as [a ts IH] using tree_induction.
  intros s [->|(c & Hc & Hin)]%subtrees_Node; [done|].
  rewrite Forall_forall in IH. specialize (IH c Hc s Hin).
  simpl. pose proof (height_kid c ts _ Hc (Nat.le_refl _)). lia.
Qed.

Lemma strict_subtree_nodes t s b :
  s ∈ concat (map subtrees (kids t)) -> b ∈ nodes s -> b ∈ descendants t.
Proof.
  intros (c & Hc & Hs)%elem_of_concat_map_inv Hb. destruct t as [a ts].
  apply (elem_of_concat_map nodes c); [done|].
  now apply (subtree_nodes c s).
Qed.

(** In a tree, a node always accepts any of its ancestors as a new
    child: the ancestor is not among the node's own descendants. *)
Lemma addChild_accepts_any_ancestor t s ms fuel st :
  shaped (heap st) t = true -> single_owner t = true -> height t <= fuel ->
  s ∈ concat (map subtrees (kids t)) ->
  heap st !! root s = Some ms ->
  addChild fuel (Ptr (root s)) (Ptr (root t)) st =
    Ok tt (mkState
             (<[root s := mkModel (m_children ms ++ [Ptr (root t)])
                            (m_markers ms) (m_tags ms)]> (heap st))
             (trace st)).
Proof.
  intros Hs Hnd Hh Hsub Hms.
  apply bool_decide_eq_true in Hnd. unfold nodes in Hnd.
  apply NoDup_cons in Hnd as [Hroot _].
  assert (s ∈ subtrees t) as Hsub'.
  { destruct t as [a ts]. apply subtrees_Node. right.
    now apply elem_of_concat_map_inv. }
  pose proof (subtree_shaped _ _ _ Hs Hsub') as Hss.
  pose proof (subtree_height _ _ Hsub') as Hhs.
  rewrite (addChild_run fuel (root s) ms (Ptr (root t)) _ st Hms
             (getDescendants_shaped fuel s st Hss ltac:(lia))).
  simpl.
  destruct (decide (Ptr (root t) = Ptr (root s))) as [[= Heq]|_].
  { exfalso. apply Hroot. rewrite Heq.
    apply (strict_subtree_nodes t s); [done|]. apply elem_of_cons. now left. }
  rewrite bool_decide_eq_false_2; [done|].
  intros (b & [= <-] & Hb)%list_elem_of_fmap. apply Hroot.
  apply (strict_subtree_nodes t s); [done|]. apply elem_of_cons. now right.
Qed.

(** After an ancestor has been accepted the structure is cyclic, and
    [getDescendants] on either node of the cycle never returns. *)
Lemma getDescendants_cycle h a b ma mb ra rb tr :
  h !! a = Some ma -> m_children ma = Ptr b :: ra ->
  h !! b = Some mb -> m_children mb = Ptr a :: rb ->
  forall fuel,
    getDescendants fuel (Ptr a) (mkState h tr) = Diverge /\
    getDescendants fuel (Ptr b) (mkState h tr) = Diverge.
Proof.
  intros Ha Hca Hb Hcb. induction fuel as [|fuel [IHa IHb]]; [done|].
  split; simpl; unfold bind at 1, deref; simpl.
  - rewrite Ha, Hca. simpl. unfold bind, assert_. now rewrite IHb.
  - rewrite Hb, Hcb. simpl. unfold bind, assert_. now rewrite IHa.
Qed.

(** The direction the check of [addChild] does cover: a strict descendant
    of the receiver is refused and nothing changes. *)
Lemma addChild_rejects_descendant t b fuel st :
  shaped (heap st) t = true ->
  single_owner t = true ->
  height t <= fuel ->
  b ∈ descendants t ->
  addChild fuel (Ptr (root t)) (Ptr b) st =
    Throw (invalid_argument "child is already a descendant") st.
Proof.
  intros Hs Hnd Hh Hb.
  destruct (shaped_root _ _ Hs) as (me & Ha & _).
  rewrite (addChild_run fuel (root t) me (Ptr b) _ st Ha
             (getDescendants_shaped fuel t st Hs Hh)).
  simpl. apply bool_decide_eq_true in Hnd. unfold nodes in Hnd.
  apply NoDup_cons in Hnd as [Hroot _].
  destruct (decide (Ptr b = Ptr (root t))) as [[= ->]|_]; [done|].
  rewrite bool_decide_eq_true_2; [done|].
  now apply (list_elem_of_fmap_2 Ptr).
Qed.

(** ** The scenario of the spec *)

Lemma build_scenario_run :
  build_scenario (mkState ∅ []) = Ok (Ptr 1, Ptr 2, Ptr 3) scenario_state.
Proof. vm_compute. reflexivity. Qed.

Lemma scenario_getDescendants :
  getDescendants 3 (Ptr 1) scenario_state = Ok [Ptr 2; Ptr 3] scenario_state.
Proof. reflexivity. Qed.

Lemma scenario_addChild_again :
  addChild 3 (Ptr 1) (Ptr 2) scenario_state =
    Throw (invalid_argument "child is already a descendant") scenario_state.
Proof. reflexivity. Qed.

Lemma scenario_self_parenting :
  addChild 3 (Ptr 1) (Ptr 1) scenario_state =
    Throw (invalid_argument "child is this object") scenario_state.
Proof. reflexivity. Qed.

Lemma scenario_cycle_diverges st' :
  addChild 3 (Ptr 3) (Ptr 2) scenario_state = Ok tt st' ->
  forall fuel, getDescendants fuel (Ptr 2) st' = Diverge.
Proof.
  intros H. vm_compute in H. injection H as <-. intros fuel.
  eapply (getDescendants_cycle _ 2 3 (mkModel [Ptr 3] [] [])
            (mkModel [Ptr 2] [] []) [] []); reflexivity.
Qed.

(** * The claims *)

(** C4: on a node whose subtree is tree-shaped in the heap,
    [getDescendants] returns, and returns exactly the strict descendants
    in depth-first order by child (each child, then that child's own
    descendants, before the next sibling); the state after the call is
    the state before it, and a childless node gives the empty
    sequence. *)
Theorem getDescendants_preorder (t : tree) (fuel : nat) (st : state) :
  shaped (heap st) t = true ->
  height t <= fuel ->
  getDescendants fuel (Ptr (root t)) st = Ok (map Ptr (descendants t)) st /\
  descendants t = concat (map (fun c => root c :: descendants c) (kids t)) /\
  (kids t = [] -> getDescendants fuel (Ptr (root t)) st = Ok [] st).
Proof.
  intros Hs Hh. pose proof (getDescendants_shaped fuel t st Hs Hh) as Hrun.
  split; [exact Hrun|]. split.
  - destruct t; reflexivity.
  - intros Hk. rewrite Hrun. destruct t as [a ts]. simpl in Hk. subst ts.
    reflexivity.
Qed.

Lemma getDescendants_preorder_witness :
  getDescendants 3 (Ptr 1) demo_state =
    Ok [Ptr 2; Ptr 5; Ptr 3; Ptr 4] demo_state.
Proof.
  apply (getDescendants_preorder demo_tree 3 demo_state).
  - vm_compute. reflexivity.
  - simpl. lia.
Defined.

(** C2: for every live node and every [dt], [step(dt)] throws
    [std::invalid_argument] exactly when [dt <= 0.0]; the throw comes
    before any child is looked at, so the heap is untouched and the only
    [step] call recorded is the one on the receiver; with [dt > 0], on a
    tree-shaped subtree, the call returns after [step(dt)] has been
    called on the receiver and on every descendant, children in child
    order. *)
Theorem step_validates_before_descending
    (a : addr) (me : tgModel) (dt : double) (fuel : nat) (st : state) :
  heap st !! a = Some me ->
  1 <= fuel ->
  ((exists e st', step fuel (Ptr a) dt st = Throw e st') <->
     double_le dt dzero = true) /\
  (double_le dt dzero = true ->
     step fuel (Ptr a) dt st =
       Throw (invalid_argument "dt is not positive")
             (mkState (heap st) (trace st ++ [EvStep (Ptr a) dt]))) /\
  (forall t,
     root t = a -> shaped (heap st) t = true -> height t <= fuel ->
     double_lt dzero dt = true ->
     step fuel (Ptr a) dt st =
       Ok tt (mkState (heap st)
                (trace st ++ EvStep (Ptr a) dt ::
                   step_events dt (concat (map nodes (kids t)))))).
Proof.
  intros Ha Hfuel. destruct fuel as [|fuel]; [lia|].
  split; [|split].
  - split.
    + intros (e & st' & Hthrow).
      destruct (double_le dt dzero) eqn:Hdt; [done|].
      pose proof (step_no_throw dt Hdt (S fuel) (Ptr a) st) as Hno.
      rewrite Hthrow in Hno. discriminate.
    + intros Hdt. rewrite (step_rejects fuel a me dt st Ha Hdt). eauto.
  - intros Hdt. now apply (step_rejects fuel a me).
  - intros t <- Hs Hh Hdt. destruct st as [h tr]. cbn [heap trace] in *.
    rewrite step_shaped by (try done; now apply double_lt_not_le).
    destruct t; reflexivity.
Qed.

Lemma step_validates_before_descending_witness :
  step 3 (Ptr 1) minus_half demo_state =
    Throw (invalid_argument "dt is not positive")
          (mkState (heap demo_state) [EvStep (Ptr 1) minus_half]) /\
  step 3 (Ptr 1) one demo_state =
    Ok tt (mkState (heap demo_state)
             [EvStep (Ptr 1) one; EvStep (Ptr 2) one; EvStep (Ptr 5) one;
              EvStep (Ptr 3) one; EvStep (Ptr 4) one]).
Proof.
  split.
  - apply (step_validates_before_descending 1
             (mkModel [Ptr 2; Ptr 3; Ptr 4] [mkMarker 7 []] [])
             minus_half 3 demo_state); [reflexivity | lia | reflexivity].
  - destruct (step_validates_before_descending 1
                (mkModel [Ptr 2; Ptr 3; Ptr 4] [mkMarker 7 []] [])
                one 3 demo_state) as (_ & _ & Hrun); [reflexivity | lia |].
    apply (Hrun demo_tree);
      [reflexivity | vm_compute; reflexivity | simpl; lia | reflexivity].
Defined.

(** C9: with [dt > 0], [step(dt)] on a composite node returns and leaves
    the receiver as it was: the object at the receiver's address has the
    same children, markers and tags after the call (indeed the whole
    heap is the same). *)
Theorem step_keeps_receiver
    (t : tree) (dt : double) (fuel : nat) (st : state) (me : tgModel) :
  shaped (heap st) t = true ->
  height t <= fuel ->
  double_lt dzero dt = true ->
  heap st !! root t = Some me ->
  exists st',
    step fuel (Ptr (root t)) dt st = Ok tt st' /\
    heap st' !! root t = Some me /\
    heap st' = heap st.
Proof.
  intros Hs Hh Hdt Ha. destruct st as [h tr].
  eexists. split; [|split].
  - apply step_shaped; [done|done|]. now apply double_lt_not_le.
  - exact Ha.
  - reflexivity.
Qed.

Lemma step_keeps_receiver_witness :
  exists st',
    step 3 (Ptr 1) one demo_state = Ok tt st' /\
    heap st' !! 1%positive =
      Some (mkModel [Ptr 2; Ptr 3; Ptr 4] [mkMarker 7 []] []) /\
    heap st' = heap demo_state.
Proof.
  apply (step_keeps_receiver demo_tree one 3 demo_state).
  - vm_compute. reflexivity.
  - simpl. lia.
  - reflexivity.
  - reflexivity.
Defined.

(** C5: [onVisit] renders the receiver first and then visits each child
    in child order: on a tree-shaped subtree it returns, the render
    calls it makes are the receiver followed by the strict descendants
    in exactly the order [getDescendants] returns them, and every node
    of the subtree is rendered exactly once. *)
Theorem onVisit_visits_once (t : tree) (fuel : nat) (st : state) :
  shaped (heap st) t = true ->
  single_owner t = true ->
  height t <= fuel ->
  exists ds,
    getDescendants fuel (Ptr (root t)) st = Ok ds st /\
    onVisit fuel (Ptr (root t)) st =
      Ok tt (mkState (heap st)
               (trace st ++ map EvRender (Ptr (root t) :: ds))) /\
    NoDup (Ptr (root t) :: ds) /\
    (forall a, a ∈ nodes t <-> Ptr a ∈ Ptr (root t) :: ds).
Proof.
  intros Hs Hnd Hh. exists (map Ptr (descendants t)).
  assert (Inj (=) (=) Ptr) as Hinj by (intros ? ? [= ->]; done).
  split; [|split; [|split]].
  - now apply getDescendants_shaped.
  - destruct st as [h tr]. simpl. rewrite onVisit_shaped by done.
    unfold render_events, nodes. simpl. now rewrite map_map.
  - apply bool_decide_eq_true in Hnd.
    change (NoDup (Ptr <$> nodes t)). now apply NoDup_fmap_2.
  - intros a. change (a ∈ nodes t <-> Ptr a ∈ Ptr <$> nodes t).
    split.
    + apply list_elem_of_fmap_2.
    + intros (b & [= ->] & Hb)%list_elem_of_fmap. exact Hb.
Qed.

Lemma onVisit_visits_once_witness :
  exists ds,
    getDescendants 3 (Ptr 1) demo_state = Ok ds demo_state /\
    onVisit 3 (Ptr 1) demo_state =
      Ok tt (mkState (heap demo_state) (map EvRender (Ptr 1 :: ds))) /\
    NoDup (Ptr 1 :: ds) /\
    (forall a, a ∈ nodes demo_tree <-> Ptr a ∈ Ptr 1 :: ds).
Proof.
  apply (onVisit_visits_once demo_tree 3 demo_state).
  - vm_compute. reflexivity.
  - vm_compute. reflexivity.
  - simpl. lia.
Defined.

(** C7: [teardown] on a node that owns a tree returns with the node's
    children and markers both empty, so that [getDescendants] then
    returns the empty sequence, and a second [teardown] returns without
    changing anything. *)
Theorem teardown_clears (t : tree) (fuel : nat) (st : state) :
  shaped (heap st) t = true ->
  single_owner t = true ->
  size t <= fuel ->
  exists st1 me1,
    teardown fuel (Ptr (root t)) st = Ok tt st1 /\
    heap st1 !! root t = Some me1 /\
    m_children me1 = [] /\ m_markers me1 = [] /\
    getDescendants fuel (Ptr (root t)) st1 = Ok [] st1 /\
    teardown fuel (Ptr (root t)) st1 = Ok tt st1.
Proof.
  intros Hs Hnd Hfuel. destruct st as [h tr].
  destruct (teardown_tree fuel t h tr Hs Hnd Hfuel)
    as (h' & me & Ha & Hrun & Ha' & _ & _).
  exists (mkState h' tr), (cleared me).
  destruct fuel as [|fuel]; [pose proof (size_pos t); lia|].
  repeat split; try done.
  - simpl. run (deref_Ok _ _ (mkState h' tr) Ha').
    reflexivity.
  - unfold teardown. rewrite (teardown_exit fuel _ (cleared me)); [|done|simpl; lia].
    f_equal. f_equal. now apply insert_id.
Qed.

Lemma teardown_clears_witness :
  exists st1 me1,
    teardown 5 (Ptr 1) demo_state = Ok tt st1 /\
    heap st1 !! 1%positive = Some me1 /\
    m_children me1 = [] /\ m_markers me1 = [] /\
    getDescendants 5 (Ptr 1) st1 = Ok [] st1 /\
    teardown 5 (Ptr 1) st1 = Ok tt st1.
Proof.
  apply (teardown_clears demo_tree 5 demo_state).
  - vm_compute. reflexivity.
  - vm_compute. reflexivity.
  - simpl. lia.
Defined.

(** C3: [addChild(candidate)] throws [std::invalid_argument] exactly
    when the candidate is null, is the receiver, or is among the
    descendants that [getDescendants] returns for the receiver before
    anything is changed; a throw leaves the state as it was; otherwise
    the call returns and the candidate has been appended, so that the
    children are not empty and their last element is the candidate. *)
Theorem addChild_checks
    (a : addr) (me : tgModel) (c : ptr) (ds : list ptr)
    (fuel : nat) (st : state) :
  heap st !! a = Some me ->
  getDescendants fuel (Ptr a) st = Ok ds st ->
  ((exists e st', addChild fuel (Ptr a) c st = Throw e st') <->
     (c = NULL \/ c = Ptr a \/ c ∈ ds)) /\
  (forall e st', addChild fuel (Ptr a) c st = Throw e st' ->
     st' = st /\ heap st' !! a = Some me) /\
  (~ (c = NULL \/ c = Ptr a \/ c ∈ ds) ->
     exists st' me',
       addChild fuel (Ptr a) c st = Ok tt st' /\
       heap st' !! a = Some me' /\
       m_children me' = m_children me ++ [c] /\
       m_children me' <> [] /\
       last (m_children me') = Some c /\
       m_markers me' = m_markers me /\ m_tags me' = m_tags me).
Proof.
  intros Ha Hds. rewrite (addChild_run fuel a me c ds st Ha Hds).
  destruct (is_null c) eqn:Hnull.
  { destruct c; [|discriminate]. split; [|split].
    - split; eauto.
    - intros e st' [= _ <-]. done.
    - intros []. auto. }
  assert (c <> NULL) as Hnn by (intros ->; discriminate).
  destruct (decide (c = Ptr a)) as [Heq|Hneq].
  { split; [|split].
    - split; eauto.
    - intros e st' [= _ <-]. done.
    - intros []. auto. }
  destruct (bool_decide (c ∈ ds)) eqn:Hin.
  { apply bool_decide_eq_true in Hin. split; [|split].
    - split; eauto.
    - intros e st' [= _ <-]. done.
    - intros []. auto. }
  apply bool_decide_eq_false in Hin. split; [|split].
  - split.
    + intros (e & st' & Habs). discriminate.
    + intros [?|[?|?]]; done.
  - intros e st' Habs. discriminate.
  - intros _. eexists _, _. split; [reflexivity|]. simpl.
    split; [apply lookup_insert_eq|]. simpl.
    repeat split; try done.
    + intros H. now apply app_nil in H as [_ ?].
    + apply last_snoc.
Qed.

Lemma addChild_checks_witness :
  (exists e st', addChild 3 (Ptr 1) (Ptr 5) demo_state = Throw e st') <->
    (Ptr 5 = NULL \/ Ptr 5 = Ptr 1 \/
     Ptr 5 ∈ [Ptr 2; Ptr 5; Ptr 3; Ptr 4]).
Proof.
  apply (addChild_checks 1 (mkModel [Ptr 2; Ptr 3; Ptr 4] [mkMarker 7 []] [])
           (Ptr 5) [Ptr 2; Ptr 5; Ptr 3; Ptr 4] 3 demo_state).
  - reflexivity.
  - vm_compute. reflexivity.
Defined.

(** C1: evaluated on the scenario of the spec, where B (3) is a strict
    descendant of A (2): [B.addChild(A)] should throw and leave the tree
    as it is, but the call does not throw; it returns, and B's children
    have become [A], which closes a cycle. *)
Theorem addChild_accepts_ancestor :
  getDescendants 3 (Ptr 2) scenario_state = Ok [Ptr 3] scenario_state /\
  ~ (exists e st', addChild 3 (Ptr 3) (Ptr 2) scenario_state = Throw e st') /\
  exists st',
    addChild 3 (Ptr 3) (Ptr 2) scenario_state = Ok tt st' /\
    heap st' !! 3%positive = Some (mkModel [Ptr 2] [] []) /\
    heap st' <> heap scenario_state /\
    forall fuel, getDescendants fuel (Ptr 2) st' = Diverge.
Proof.
  split; [reflexivity|]. split.
  - intros (e & st' & H). vm_compute in H. discriminate.
  - eexists. split; [reflexivity|]. split; [reflexivity|]. split.
    + intros H. apply (f_equal (fun h => h !! 3%positive)) in H.
      vm_compute in H. discriminate.
    + now apply scenario_cycle_diverges.
Qed.

(** C6: evaluated on the scenario of the spec (root 1 with marker M1,
    child 2, grandchild 3): [getSenseableDescendants] returns the
    descendants followed by one pointer per marker, but that pointer is
    the address of an element of the vector local to the call, not of
    the marker the receiver owns, so the result is not the sequence the
    claim describes; after the call there is no marker behind the
    pointer, while the receiver's own marker is still in place. *)
Theorem getSenseableDescendants_points_to_locals :
  getSenseableDescendants 3 (Ptr 1) scenario_state =
    Ok [SModel (Ptr 2); SModel (Ptr 3); SMarker (InLocal 0)] scenario_state /\
  senseable_as_specified scenario_tree (mkModel [Ptr 2] [mkMarker 1 []] []) =
    [SModel (Ptr 2); SModel (Ptr 3); SMarker (InModel 1 0)] /\
  getSenseableDescendants 3 (Ptr 1) scenario_state <>
    Ok (senseable_as_specified scenario_tree
          (mkModel [Ptr 2] [mkMarker 1 []] [])) scenario_state /\
  marker_behind scenario_state (SMarker (InLocal 0)) = None /\
  marker_behind scenario_state (SMarker (InModel 1 0)) = Some (mkMarker 1 []).
Proof.
  split; [reflexivity|]. split; [reflexivity|]. split; [|split; reflexivity].
  intros H. vm_compute in H. discriminate.
Qed.

(** C8: [addMarker(m)] returns with a copy of the caller's marker at the
    end of the receiver's marker list, and an assignment to the caller's
    variable afterwards does not change what [getMarkers] returns. *)
Theorem addMarker_copies
    (a : addr) (me : tgModel) (c : caller) (v : abstractMarker) :
  heap (models c) !! a = Some me ->
  exists c1,
    call_addMarker (Ptr a) c = Ok c1 (models c1) /\
    var_marker c1 = var_marker c /\
    getMarkers (Ptr a) (models c1) =
      Ok (m_markers me ++ [var_marker c]) (models c1) /\
    var_marker (assign_marker v c1) = v /\
    getMarkers (Ptr a) (models (assign_marker v c1)) =
      Ok (m_markers me ++ [var_marker c]) (models (assign_marker v c1)).
Proof.
  intros Ha. unfold call_addMarker, addMarker.
  run (deref_Ok _ _ _ Ha).
  unfold store. rewrite Ha.
  exists (mkCaller (var_marker c)
            (mkState
               (<[a := mkModel (m_children me)
                         (m_markers me ++ [var_marker c]) (m_tags me)]>
                  (heap (models c)))
               (trace (models c)))).
  split; [reflexivity|]. simpl. split; [reflexivity|].
  unfold getMarkers, bind, deref, ret. simpl. rewrite lookup_insert_eq.
  repeat split.
Qed.

Lemma addMarker_copies_witness :
  exists c1,
    call_addMarker (Ptr 1) (mkCaller (mkMarker 2 []) scenario_state) =
      Ok c1 (models c1) /\
    var_marker c1 = mkMarker 2 [] /\
    getMarkers (Ptr 1) (models c1) =
      Ok [mkMarker 1 []; mkMarker 2 []] (models c1) /\
    var_marker (assign_marker (mkMarker 3 []) c1) = mkMarker 3 [] /\
    getMarkers (Ptr 1) (models (assign_marker (mkMarker 3 []) c1)) =
      Ok [mkMarker 1 []; mkMarker 2 []]
         (models (assign_marker (mkMarker 3 []) c1)).
Proof.
  apply (addMarker_copies 1 (mkModel [Ptr 2] [mkMarker 1 []] [])
           (mkCaller (mkMarker 2 []) scenario_state) (mkMarker 3 [])).
  reflexivity.
Defined.

(** C10: [invariant()] is true in every state, so every
    [assert(invariant())] passes; it is true as well of a node with a
    null child and of a node that holds the same child twice, the two
    conditions its comments name. *)
Theorem invariant_always_true :
  (forall this st, invariant this st = true) /\
  (forall this st, assert_invariant this st = Ok tt st) /\
  heap broken_state !! 1%positive = Some (mkModel [NULL; Ptr 2; Ptr 2] [] []) /\
  invariant (Ptr 1) broken_state = true.
Proof. repeat split. Qed.

(** * Further properties of the code *)

(** ** addChild: order of the checks, growth of a tree *)

Lemma shaped_intro h a me ts :
  h !! a = Some me -> m_children me = child_ptrs ts ->
  Forall (fun c => shaped h c = true) ts ->
  shaped h (Node a ts) = true.
Proof.
  intros Ha Hc Hts. simpl. rewrite Ha.
  apply andb_true_intro. split; [now apply bool_decide_eq_true|].
  apply forallb_forall. intros c Hin. rewrite Forall_forall in Hts.
  now apply Hts, list_elem_of_In.
Qed.

Lemma shaped_live h t b :
  shaped h t = true -> b ∈ nodes t -> is_Some (h !! b).
Proof.
  revert b. induction t as [a ts IH] using tree_induction. intros b Hs Hb.
  destruct (shaped_inv _ _ _ Hs) as (me & Ha & _ & Hts).
  rewrite nodes_Node in Hb. apply elem_of_cons in Hb as [->|Hb]; [eauto|].
  apply elem_of_concat_map_inv in Hb as (c & Hc & Hb).
  rewrite Forall_forall in IH, Hts. apply (IH c Hc b); [now apply Hts|done].
Qed.

Lemma height_attach t tc :
  height (attach t tc) = Nat.max (height t) (S (height tc)).
Proof.
  destruct t as [a ts]. unfold attach. simpl. f_equal.
  induction ts as [|c ts IH]; simpl; [lia|]. rewrite IH. lia.
Qed.

Lemma descendants_attach t tc :
  descendants (attach t tc) = descendants t ++ nodes tc.
Proof.
  destruct t as [a ts]. unfold attach. cbn [root kids descendants].
  rewrite map_app, concat_app. cbn [map concat]. now rewrite app_nil_r.
Qed.

(** Attaching the root of a tree that shares no object with the tree of
    the receiver: the call returns and the heap holds the grown tree. *)
Lemma addChild_disjoint t tc fuel st :
  shaped (heap st) t = true -> shaped (heap st) tc = true ->
  NoDup (nodes t ++ nodes tc) -> height t <= fuel ->
  exists me,
    heap st !! root t = Some me /\
    addChild fuel (Ptr (root t)) (Ptr (root tc)) st =
      Ok tt (mkState
               (<[root t := mkModel (m_children me ++ [Ptr (root tc)])
                              (m_markers me) (m_tags me)]> (heap st))
               (trace st)) /\
    shaped (<[root t := mkModel (m_children me ++ [Ptr (root tc)])
                          (m_markers me) (m_tags me)]> (heap st))
           (attach t tc) = true /\
    single_owner (attach t tc) = true.
Proof.
  intros Hs Hsc Hnd Hh.
  pose proof Hnd as Hnd'. apply NoDup_app in Hnd' as (Hndt & Hdisj & Hndc).
  destruct t as [a ts].
  destruct (shaped_inv _ _ _ Hs) as (me & Ha & Hc & Hts).
  exists me. split; [exact Ha|].
  assert (a ∉ nodes tc) as Hatc.
  { apply Hdisj. rewrite nodes_Node. apply elem_of_cons. now left. }
  assert (a <> root tc) as Hne.
  { intros ->. apply Hatc. apply elem_of_cons. now left. }
  assert (root tc ∉ descendants (Node a ts)) as Hfresh.
  { intros Hin. apply (Hdisj (root tc)).
    - apply elem_of_cons. now right.
    - apply elem_of_cons. now left. }
  cbn [root]. split; [|split].
  - rewrite (addChild_run fuel a me (Ptr (root tc)) _ st Ha
               (getDescendants_shaped fuel (Node a ts) st Hs Hh)).
    cbn [is_null].
    destruct (decide (Ptr (root tc) = Ptr a)) as [[= Heq]|_]; [congruence|].
    rewrite bool_decide_eq_false_2; [done|].
    intros (b & [= <-] & Hb)%list_elem_of_fmap. done.
  - unfold attach. cbn [root kids].
    apply (shaped_intro _ _ (mkModel (m_children me ++ [Ptr (root tc)])
                               (m_markers me) (m_tags me))).
    + apply lookup_insert_eq.
    + simpl. rewrite Hc. unfold child_ptrs. now rewrite map_app.
    + apply Forall_app. split.
      * apply Forall_forall. intros c Hin.
        apply (shaped_agree (heap st)); [|rewrite Forall_forall in Hts; auto].
        intros b Hb. apply lookup_insert_ne. intros <-.
        apply NoDup_cons in Hndt as [Hroot _]. apply Hroot.
        now apply (elem_of_concat_map nodes c).
      * apply Forall_singleton. apply (shaped_agree (heap st)); [|done].
        intros b Hb. apply lookup_insert_ne. now intros <-.
  - apply bool_decide_eq_true. unfold nodes.
    rewrite descendants_attach. exact Hnd.
Qed.

(** X1: on a live receiver, [addChild(NULL)] and [addChild(this)] throw
    their own messages and change nothing; both tests come before
    [getDescendants] is called, so this holds whatever lies under the
    receiver (even a cycle) and for any recursion budget. *)
Theorem addChild_null_and_self_first
    (a : addr) (me : tgModel) (fuel : nat) (st : state) :
  heap st !! a = Some me ->
  addChild fuel (Ptr a) NULL st =
    Throw (invalid_argument "child is NULL") st /\
  addChild fuel (Ptr a) (Ptr a) st =
    Throw (invalid_argument "child is this object") st.
Proof.
  intros Ha. split; unfold addChild; run (deref_Ok _ _ _ Ha).
  - reflexivity.
  - unfold bind at 1. cbn [is_null].
    destruct (decide (Ptr a = Ptr a)); [reflexivity|congruence].
Qed.

Lemma addChild_null_and_self_first_witness :
  addChild 0 (Ptr 1) NULL cycle_state =
    Throw (invalid_argument "child is NULL") cycle_state /\
  addChild 0 (Ptr 1) (Ptr 1) cycle_state =
    Throw (invalid_argument "child is this object") cycle_state.
Proof.
  apply (addChild_null_and_self_first 1 (mkModel [Ptr 2] [] []) 0 cycle_state).
  reflexivity.
Defined.

(** X2: attaching the root of a tree that shares no object with the
    receiver's tree succeeds; afterwards the heap holds the grown tree
    (still with one owner per object), no other object has changed, and
    [getDescendants] returns the old descendants followed by the new
    child and the new child's descendants. *)
Theorem addChild_grows_tree
    (t tc : tree) (fuel : nat) (st : state) :
  shaped (heap st) t = true ->
  shaped (heap st) tc = true ->
  NoDup (nodes t ++ nodes tc) ->
  height t <= fuel ->
  exists st',
    addChild fuel (Ptr (root t)) (Ptr (root tc)) st = Ok tt st' /\
    shaped (heap st') (attach t tc) = true /\
    single_owner (attach t tc) = true /\
    trace st' = trace st /\
    (forall b, b <> root t -> heap st' !! b = heap st !! b) /\
    (forall fuel', height (attach t tc) <= fuel' ->
       getDescendants fuel' (Ptr (root t)) st' =
         Ok (map Ptr (descendants t ++ root tc :: descendants tc)) st').
Proof.
  intros Hs Hsc Hnd Hh.
  destruct (addChild_disjoint t tc fuel st Hs Hsc Hnd Hh)
    as (me & Ha & Hrun & Hshape & Hown).
  eexists. split; [exact Hrun|]. cbn [heap trace].
  split; [exact Hshape|]. split; [exact Hown|]. split; [done|]. split.
  - intros b Hb. now apply lookup_insert_ne.
  - intros fuel' Hh'. change (root tc :: descendants tc) with (nodes tc).
    rewrite <- descendants_attach.
    now apply (getDescendants_shaped fuel' (attach t tc)).
Qed.

Lemma addChild_grows_tree_witness :
  exists st',
    addChild 3 (Ptr 1) (Ptr 6)
      (mkState (<[6%positive := mkModel [] [] []]> (heap demo_state)) []) =
      Ok tt st' /\
    getDescendants 3 (Ptr 1) st' =
      Ok [Ptr 2; Ptr 5; Ptr 3; Ptr 4; Ptr 6] st'.
Proof.
  destruct (addChild_grows_tree demo_tree (Node 6 []) 3
              (mkState (<[6%positive := mkModel [] [] []]> (heap demo_state)) []))
    as (st' & Hrun & _ & _ & _ & _ & Hd).
  - vm_compute. reflexivity.
  - vm_compute. reflexivity.
  - apply (bool_decide_unpack _). vm_compute. exact I.
  - simpl. lia.
  - exists st'. split; [exact Hrun|]. apply Hd. simpl. lia.
Defined.

(** X3: a node fresh from the constructor can always be attached to the
    root of a tree: construction followed by [addChild] returns, the new
    object was not live before, it starts without children or markers,
    and the heap holds the tree grown by one leaf. *)
Theorem new_child_accepted
    (t : tree) (tags : tgTags) (fuel : nat) (st : state) :
  shaped (heap st) t = true ->
  single_owner t = true ->
  height t <= fuel ->
  exists c st',
    (p <- new_tgModel tags;; addChild fuel (Ptr (root t)) p;; ret p) st =
      Ok (Ptr c) st' /\
    heap st !! c = None /\
    heap st' !! c = Some (mkModel [] [] tags) /\
    shaped (heap st') (attach t (Node c [])) = true /\
    single_owner (attach t (Node c [])) = true.
Proof.
  intros Hs Hnd Hh. apply bool_decide_eq_true in Hnd.
  set (c := fresh (dom (heap st))).
  assert (heap st !! c = None) as Hc.
  { apply not_elem_of_dom. apply is_fresh. }
  assert (c ∉ nodes t) as Hct.
  { intros Hin. destruct (shaped_live _ _ _ Hs Hin) as [? Hlive]. congruence. }
  set (st1 := mkState (<[c := mkModel [] [] tags]> (heap st)) (trace st)).
  assert (new_tgModel tags st = Ok (Ptr c) st1) as Hnew by reflexivity.
  destruct (addChild_disjoint t (Node c []) fuel st1)
    as (me & Ha & Hrun & Hshape & Hown).
  - apply (shaped_agree (heap st)); [|done]. intros b Hb.
    apply lookup_insert_ne. now intros <-.
  - apply (shaped_intro _ _ (mkModel [] [] tags)); [apply lookup_insert_eq|done|done].
  - apply NoDup_app. split; [done|]. split; [|apply NoDup_singleton].
    intros b Hb ->%list_elem_of_singleton. done.
  - done.
  - exists c. eexists. split; [|split; [exact Hc|split; [|split]]].
    + run Hnew. cbn [root] in Hrun. run Hrun. reflexivity.
    + cbn [heap]. rewrite lookup_insert_ne; [apply lookup_insert_eq|].
      intros <-. apply Hct. apply elem_of_cons. now left.
    + exact Hshape.
    + exact Hown.
Qed.

Lemma new_child_accepted_witness :
  exists c st',
    (p <- new_tgModel [];; addChild 3 (Ptr 1) p;; ret p) demo_state =
      Ok (Ptr c) st' /\
    heap demo_state !! c = None /\
    heap st' !! c = Some (mkModel [] [] []) /\
    shaped (heap st') (attach demo_tree (Node c [])) = true /\
    single_owner (attach demo_tree (Node c [])) = true.
Proof.
  apply (new_child_accepted demo_tree [] 3 demo_state).
  - vm_compute. reflexivity.
  - vm_compute. reflexivity.
  - simpl. lia.
Defined.

(** ** The destructor *)

Lemma delete_children fuel a me :
  (forall t h tr,
     shaped h t = true -> NoDup (nodes t) -> height t <= fuel ->
     exists h',
       delete_ fuel (Ptr (root t)) (mkState h tr) = Ok tt (mkState h' tr) /\
       (forall b, b ∈ nodes t -> h' !! b = None) /\
       (forall b, b ∉ nodes t -> h' !! b = h !! b)) ->
  forall suf pre h tr,
    h !! a = Some me -> m_children me = child_ptrs (pre ++ suf) ->
    Forall (fun c => shaped h c = true) suf ->
    NoDup (a :: concat (map nodes suf)) ->
    Forall (fun c => height c <= fuel) suf ->
    exists h',
      for_range (length suf) (length pre)
        (fun i => pChild <- child_at (Ptr a) i;;
                  assert_ (negb (is_null pChild));;
                  delete_ fuel pChild) (mkState h tr)
      = Ok tt (mkState h' tr) /\
      h' !! a = Some me /\
      (forall b, b ∈ concat (map nodes suf) -> h' !! b = None) /\
      (forall b, b ∉ concat (map nodes suf) -> h' !! b = h !! b).
Proof.
  intros Hdel suf. induction suf as [|c suf IH];
    intros pre h tr Ha Hc Hsh Hnd Hhs.
  - exists h. repeat split; try done. intros b Hb. now apply elem_of_nil in Hb.
  - cbn [map concat] in *.
    apply NoDup_cons in Hnd as [Hna Hnd].
    apply NoDup_app in Hnd as (Hndc & Hdisj & Hndsuf).
    apply not_elem_of_app in Hna as [Hnac Hnasuf].
    inversion Hsh as [|? ? Hshc Hshsuf]; subst.
    inversion Hhs as [|? ? Hhc Hhsuf]; subst.
    destruct (Hdel c h tr Hshc Hndc Hhc) as (h1 & Hrun1 & Hgone1 & Hframe1).
    assert (m_children me !! length pre = Some (Ptr (root c))) as Hi.
    { rewrite Hc. unfold child_ptrs. rewrite map_app. simpl.
      rewrite <- (length_map (fun c0 => Ptr (root c0)) pre).
      now apply list_lookup_middle. }
    destruct (IH (pre ++ [c]) h1 tr) as (h' & Hrun & Ha' & Hgone & Hframe).
    { now rewrite Hframe1. }
    { now rewrite <- app_assoc. }
    { apply Forall_forall. intros c' Hc'.
      apply (shaped_agree h); [|rewrite Forall_forall in Hshsuf; auto].
      intros b Hb. apply Hframe1. intros Hin. apply (Hdisj b Hin).
      now apply (elem_of_concat_map nodes c'). }
    { now apply NoDup_cons. }
    { done. }
    exists h'. split; [|split; [done|split]].
    + simpl. unfold bind at 1.
      run (child_at_Ok a me _ _ (mkState h tr) Ha Hi).
      unfold bind at 1. cbn [is_null negb assert_]. rewrite Hrun1.
      rewrite length_app in Hrun. simpl in Hrun.
      replace (length pre + 1) with (S (length pre)) in Hrun by lia.
      exact Hrun.
    + intros b Hb. apply elem_of_app in Hb as [Hb|Hb]; [|now apply Hgone].
      rewrite Hframe by now apply Hdisj. now apply Hgone1.
    + intros b Hb. apply not_elem_of_app in Hb as [Hb1 Hb2].
      rewrite Hframe by done. now apply Hframe1.
Qed.

Lemma delete_tree fuel :
  forall t h tr,
    shaped h t = true -> NoDup (nodes t) -> height t <= fuel ->
    exists h',
      delete_ fuel (Ptr (root t)) (mkState h tr) = Ok tt (mkState h' tr) /\
      (forall b, b ∈ nodes t -> h' !! b = None) /\
      (forall b, b ∉ nodes t -> h' !! b = h !! b).
Proof.
  induction fuel as [|fuel IH]; intros [a ts] h tr Hs Hnd Hh;
    [simpl in Hh; lia|].
  destruct (shaped_inv _ _ _ Hs) as (me & Ha & Hc & Hts).
  rewrite nodes_Node in Hnd.
  destruct (delete_children fuel a me IH ts [] h tr Ha Hc Hts Hnd)
    as (h' & Hrun & Ha' & Hgone & Hframe).
  { apply Forall_forall. intros c Hin. simpl in Hh.
    apply (height_kid c ts); [done|lia]. }
  exists (delete a h'). split; [|split].
  - cbn [root delete_]. run (deref_Ok a me (mkState h tr) Ha).
    rewrite Hc. unfold child_ptrs at 1. rewrite length_map.
    change 0 with (length (@nil tree)). run Hrun.
    unfold free. cbn [heap trace]. now rewrite Ha'.
  - intros b Hb. rewrite nodes_Node in Hb.
    apply elem_of_cons in Hb as [->|Hb]; [apply lookup_delete_eq|].
    destruct (decide (b = a)) as [->|Hne]; [apply lookup_delete_eq|].
    rewrite lookup_delete_ne by done. now apply Hgone.
  - intros b Hb. rewrite nodes_Node in Hb.
    apply not_elem_of_cons in Hb as [Hb1 Hb2].
    rewrite lookup_delete_ne by done. now apply Hframe.
Qed.

(** X4: [delete p] on the root of a tree with one owner per object runs
    the destructor down the whole tree and returns: every object of the
    tree has been released, and no other object has changed. *)
Theorem delete_releases_tree (t : tree) (fuel : nat) (st : state) :
  shaped (heap st) t = true ->
  single_owner t = true ->
  height t <= fuel ->
  exists st',
    delete_ fuel (Ptr (root t)) st = Ok tt st' /\
    trace st' = trace st /\
    (forall b, b ∈ nodes t -> heap st' !! b = None) /\
    (forall b, b ∉ nodes t -> heap st' !! b = heap st !! b).
Proof.
  intros Hs Hnd Hh. apply bool_decide_eq_true in Hnd. destruct st as [h tr].
  destruct (delete_tree fuel t h tr Hs Hnd Hh) as (h' & Hrun & Hgone & Hframe).
  exists (mkState h' tr). repeat split; done.
Qed.

Lemma delete_releases_tree_witness :
  exists st',
    delete_ 3 (Ptr 2) demo_state = Ok tt st' /\
    trace st' = trace demo_state /\
    (forall b, b ∈ nodes (Node 2 [Node 5 []]) -> heap st' !! b = None) /\
    (forall b, b ∉ nodes (Node 2 [Node 5 []]) ->
       heap st' !! b = heap demo_state !! b).
Proof.
  apply (delete_releases_tree (Node 2 [Node 5 []]) 3 demo_state).
  - vm_compute. reflexivity.
  - vm_compute. reflexivity.
  - simpl. lia.
Defined.

(** X5: [teardown] on a node that owns a tree releases every strict
    descendant, keeps the receiver alive with its tags but without
    children or markers, and changes no object outside the subtree. *)
Theorem teardown_releases_descendants (t : tree) (fuel : nat) (st : state) :
  shaped (heap st) t = true ->
  single_owner t = true ->
  size t <= fuel ->
  exists st' me,
    heap st !! root t = Some me /\
    teardown fuel (Ptr (root t)) st = Ok tt st' /\
    heap st' !! root t = Some (mkModel [] [] (m_tags me)) /\
    (forall b, b ∈ descendants t -> heap st' !! b = None) /\
    (forall b, b ∉ nodes t -> heap st' !! b = heap st !! b).
Proof.
  intros Hs Hnd Hfuel. destruct st as [h tr].
  destruct (teardown_tree fuel t h tr Hs Hnd Hfuel)
    as (h' & me & Ha & Hrun & Ha' & Hgone & Hframe).
  exists (mkState h' tr), me. repeat split; done.
Qed.

Lemma teardown_releases_descendants_witness :
  exists st' me,
    heap demo_state !! 1%positive = Some me /\
    teardown 5 (Ptr 1) demo_state = Ok tt st' /\
    heap st' !! 1%positive = Some (mkModel [] [] (m_tags me)) /\
    (forall b, b ∈ descendants demo_tree -> heap st' !! b = None) /\
    (forall b, b ∉ nodes demo_tree -> heap st' !! b = heap demo_state !! b).
Proof.
  apply (teardown_releases_descendants demo_tree 5 demo_state).
  - vm_compute. reflexivity.
  - vm_compute. reflexivity.
  - simpl. lia.
Defined.

(** ** setup *)

Lemma setup_loop fuel :
  forall a me pre suf world st,
    heap st !! a = Some me -> m_children me = child_ptrs (pre ++ suf) ->
    Forall (fun c => shaped (heap st) c = true) suf ->
    S (sum_list (map size suf)) <= fuel ->
    setup_from fuel (Ptr a) world (length pre) st = Ok tt st.
Proof.
  induction fuel as [|fuel IH]; intros a me pre suf world st Ha Hc Hsh Hfuel;
    [lia|].
  cbn [setup_from]. run (deref_Ok _ _ _ Ha).
  destruct suf as [|c suf].
  - rewrite app_nil_r in Hc.
    destruct (decide (length pre < length (m_children me))) as [Hlt|_].
    { rewrite Hc in Hlt. unfold child_ptrs in Hlt. rewrite length_map in Hlt. lia. }
    reflexivity.
  - inversion Hsh as [|? ? Hshc Hshsuf]; subst. cbn [map sum_list] in Hfuel.
    assert (m_children me !! length pre = Some (Ptr (root c))) as Hi.
    { rewrite Hc. unfold child_ptrs. rewrite map_app. simpl.
      rewrite <- (length_map (fun c0 => Ptr (root c0)) pre).
      now apply list_lookup_middle. }
    destruct (decide (length pre < length (m_children me))) as [_|Hge].
    2:{ exfalso. apply Hge. apply lookup_lt_is_Some. eauto. }
    run (child_at_Ok a me _ _ st Ha Hi).
    destruct c as [ac cts].
    destruct (shaped_inv _ _ _ Hshc) as (mc & Hac & Hcc & Hshk).
    rewrite (bind_Ok _ _ _ tt st).
    + specialize (IH a me (pre ++ [Node ac cts]) suf world st Ha).
      rewrite length_app in IH. simpl in IH.
      replace (length pre + 1) with (S (length pre)) in IH by lia.
      simpl in Hfuel.
      apply IH; [now rewrite <- app_assoc|done|lia].
    + apply (IH ac mc [] cts world st Hac Hcc Hshk). simpl in Hfuel. lia.
Qed.

(** X6: [setup] on a node whose subtree is tree-shaped walks the whole
    subtree and returns with the state exactly as it was: the composite
    itself sets nothing up. *)
Theorem setup_leaves_state
    (t : tree) (world : tgWorld) (fuel : nat) (st : state) :
  shaped (heap st) t = true ->
  size t <= fuel ->
  setup fuel (Ptr (root t)) world st = Ok tt st.
Proof.
  intros Hs Hfuel. destruct t as [a ts].
  destruct (shaped_inv _ _ _ Hs) as (me & Ha & Hc & Hts).
  exact (setup_loop fuel a me [] ts world st Ha Hc Hts Hfuel).
Qed.

Lemma setup_leaves_state_witness :
  setup 5 (Ptr 1) tt demo_state = Ok tt demo_state.
Proof.
  apply (setup_leaves_state demo_tree tt 5 demo_state).
  - vm_compute. reflexivity.
  - simpl. lia.
Defined.

(** ** A null child *)

(** X7: when the first child of a live node is null, the functions that
    assert [pChild != NULL] stop at the assert ([getDescendants], [step]
    with an accepted [dt], [onVisit], the destructor), while [setup],
    [teardown] and [toString], which have no such assert, call through
    the null pointer. *)
Theorem null_child_assert_or_undefined
    (a : addr) (me : tgModel) (rest : list ptr) (dt : double)
    (world : tgWorld) (show_tags : tgTags -> string) (prefix : string)
    (fuel : nat) (st : state) :
  heap st !! a = Some me ->
  m_children me = NULL :: rest ->
  double_le dt dzero = false ->
  getDescendants (S fuel) (Ptr a) st = Abort /\
  step (S fuel) (Ptr a) dt st = Abort /\
  onVisit (S fuel) (Ptr a) st = Abort /\
  delete_ (S fuel) (Ptr a) st = Abort /\
  setup (S (S fuel)) (Ptr a) world st = Undefined /\
  teardown (S (S fuel)) (Ptr a) st = Undefined /\
  toString show_tags (S (S fuel)) (Ptr a) prefix st = Undefined.
Proof.
  intros Ha Hc Hdt. destruct st as [h tr]. cbn [heap] in Ha.
  assert (forall tr', child_at (Ptr a) 0 (mkState h tr') =
                      Ok NULL (mkState h tr')) as Hchild.
  { intros tr'. apply (child_at_Ok a me); [done|]. now rewrite Hc. }
  assert (0 < length (NULL :: rest)) as Hpos by (simpl; lia).
  repeat split.
  - cbn [getDescendants]. run (deref_Ok a me (mkState h tr) Ha). now rewrite Hc.
  - cbn [step]. run (deref_Ok a me (mkState h tr) Ha). rewrite Hdt, Hc.
    unfold bind at 1. unfold emit at 1. cbn [length for_range heap trace].
    unfold bind at 1. unfold bind at 1. unfold bind at 1.
    now rewrite Hchild.
  - cbn [onVisit]. run (deref_Ok a me (mkState h tr) Ha). rewrite Hc.
    unfold bind at 1. unfold emit at 1. cbn [length for_range heap trace].
    unfold bind at 1. unfold bind at 1. unfold bind at 1.
    now rewrite Hchild.
  - cbn [delete_]. run (deref_Ok a me (mkState h tr) Ha). rewrite Hc.
    cbn [length for_range].
    unfold bind at 1. unfold bind at 1. unfold bind at 1.
    now rewrite Hchild.
  - unfold setup. cbn [setup_from]. run (deref_Ok a me (mkState h tr) Ha).
    rewrite Hc. destruct (decide (0 < length (NULL :: rest))); [|lia].
    unfold bind at 1. now rewrite Hchild.
  - unfold teardown. cbn [teardown_from]. run (deref_Ok a me (mkState h tr) Ha).
    rewrite Hc. destruct (decide (0 < length (NULL :: rest))); [|lia].
    unfold bind at 1. now rewrite Hchild.
  - cbn [toString]. run (deref_Ok a me (mkState h tr) Ha). now rewrite Hc.
Qed.

Lemma null_child_assert_or_undefined_witness :
  getDescendants 1 (Ptr 1) null_child_state = Abort /\
  step 1 (Ptr 1) one null_child_state = Abort /\
  onVisit 1 (Ptr 1) null_child_state = Abort /\
  delete_ 1 (Ptr 1) null_child_state = Abort /\
  setup 2 (Ptr 1) tt null_child_state = Undefined /\
  teardown 2 (Ptr 1) null_child_state = Undefined /\
  toString show_labels 2 (Ptr 1) "" null_child_state = Undefined.
Proof.
  apply (null_child_assert_or_undefined 1 (mkModel [NULL; Ptr 2] [] [])
           [Ptr 2] one tt show_labels "" 0 null_child_state);
    reflexivity.
Defined.

(** ** What the traversals never do *)

Lemma onVisit_heap_kept fuel :
  forall this st, heap_kept (heap st) (onVisit fuel this st).
Proof.
  induction fuel as [|fuel IH]; intros this st; [done|]. cbn [onVisit].
  apply bind_heap_kept; [apply deref_heap_kept|]. intros me st1 H1.
  apply bind_heap_kept; [done|]. intros _ st2 H2.
  apply bind_heap_kept.
  - apply for_range_heap_kept; [|done]. intros i st3 H3.
    apply bind_heap_kept; [rewrite <- H3; apply child_at_heap_kept|].
    intros c st4 H4.
    apply bind_heap_kept; [rewrite <- H4; apply assert_heap_kept|].
    intros _ st5 H5. rewrite <- H5. apply IH.
  - intros _ st3 H3. unfold assert_invariant. rewrite <- H3.
    apply assert_heap_kept.
Qed.

Lemma onVisit_no_throw fuel :
  forall this st, is_throw (onVisit fuel this st) = false.
Proof.
  induction fuel as [|fuel IH]; intros this st; [done|]. cbn [onVisit].
  apply bind_no_throw; [apply deref_no_throw|]. intros me st1 _.
  apply bind_no_throw; [done|]. intros _ st2 _.
  apply bind_no_throw; [|intros; apply assert_no_throw].
  apply for_range_no_throw. intros i st3.
  apply bind_no_throw; [apply child_at_no_throw|]. intros c st4 _.
  apply bind_no_throw; [apply assert_no_throw|]. intros _ st5 _. apply IH.
Qed.

Lemma collect_no_throw rec :
  (forall p st, is_throw (rec p st) = false) ->
  forall cs acc st, is_throw (collect rec cs acc st) = false.
Proof.
  intros Hrec cs. induction cs as [|c cs IH]; intros acc st; [done|].
  cbn [collect].
  apply bind_no_throw; [apply assert_no_throw|]. intros _ st1 _.
  apply bind_no_throw; [apply Hrec|]. intros cd st2 _. apply IH.
Qed.

Lemma getDescendants_no_throw fuel :
  forall this st, is_throw (getDescendants fuel this st) = false.
Proof.
  induction fuel as [|fuel IH]; intros this st; [done|]. cbn [getDescendants].
  apply bind_no_throw; [apply deref_no_throw|]. intros me st1 _.
  now apply collect_no_throw.
Qed.

(** X8: on any structure at all, well-formed or not, [step], [onVisit]
    and [getDescendants] never change an object: a call that ends, by
    return or by throw, ends with the heap it started with (for
    [getDescendants], with the whole state).  [onVisit] and
    [getDescendants] never throw; [step] never throws when [dt] passes
    its test. *)
Theorem traversals_change_no_object
    (fuel : nat) (this : ptr) (dt : double) (st : state) :
  heap_kept (heap st) (step fuel this dt st) /\
  heap_kept (heap st) (onVisit fuel this st) /\
  (forall ds st', getDescendants fuel this st = Ok ds st' -> st' = st) /\
  is_throw (onVisit fuel this st) = false /\
  is_throw (getDescendants fuel this st) = false /\
  (double_le dt dzero = false -> is_throw (step fuel this dt st) = false).
Proof.
  split; [apply step_heap_kept|]. split; [apply onVisit_heap_kept|].
  split; [intros ds st'; apply getDescendants_pure|].
  split; [apply onVisit_no_throw|]. split; [apply getDescendants_no_throw|].
  intros Hdt. now apply step_no_throw.
Qed.

Lemma traversals_change_no_object_witness :
  heap_kept (heap cycle_state) (step 5 (Ptr 1) minus_half cycle_state) /\
  heap_kept (heap null_child_state) (onVisit 5 (Ptr 1) null_child_state) /\
  is_throw (step 5 (Ptr 1) one cycle_state) = false.
Proof.
  split; [|split].
  - apply (traversals_change_no_object 5 (Ptr 1) minus_half cycle_state).
  - apply (traversals_change_no_object 5 (Ptr 1) one null_child_state).
  - apply (traversals_change_no_object 5 (Ptr 1) one cycle_state).
    reflexivity.
Defined.

(** ** A cycle *)

Lemma step_cycle h a b ma mb ra rb dt :
  h !! a = Some ma -> m_children ma = Ptr b :: ra ->
  h !! b = Some mb -> m_children mb = Ptr a :: rb ->
  double_le dt dzero = false ->
  forall fuel tr,
    step fuel (Ptr a) dt (mkState h tr) = Diverge /\
    step fuel (Ptr b) dt (mkState h tr) = Diverge.
Proof.
  intros Ha Hca Hb Hcb Hdt. induction fuel as [|fuel IH]; intros tr; [done|].
  split; cbn [step].
  - run (deref_Ok a ma (mkState h tr) Ha). rewrite Hdt, Hca.
    unfold bind at 1. unfold emit at 1. cbn [length for_range heap trace].
    unfold bind at 1. unfold bind at 1. unfold bind at 1.
    rewrite (child_at_Ok a ma 0 (Ptr b)) by (try done; now rewrite Hca).
    unfold bind at 1. cbn [is_null negb assert_].
    now rewrite (proj2 (IH _)).
  - run (deref_Ok b mb (mkState h tr) Hb). rewrite Hdt, Hcb.
    unfold bind at 1. unfold emit at 1. cbn [length for_range heap trace].
    unfold bind at 1. unfold bind at 1. unfold bind at 1.
    rewrite (child_at_Ok b mb 0 (Ptr a)) by (try done; now rewrite Hcb).
    unfold bind at 1. cbn [is_null negb assert_].
    now rewrite (proj1 (IH _)).
Qed.

Lemma onVisit_cycle h a b ma mb ra rb :
  h !! a = Some ma -> m_children ma = Ptr b :: ra ->
  h !! b = Some mb -> m_children mb = Ptr a :: rb ->
  forall fuel tr,
    onVisit fuel (Ptr a) (mkState h tr) = Diverge /\
    onVisit fuel (Ptr b) (mkState h tr) = Diverge.
Proof.
  intros Ha Hca Hb Hcb. induction fuel as [|fuel IH]; intros tr; [done|].
  split; cbn [onVisit].
  - run (deref_Ok a ma (mkState h tr) Ha). rewrite Hca.
    unfold bind at 1. unfold emit at 1. cbn [length for_range heap trace].
    unfold bind at 1. unfold bind at 1. unfold bind at 1.
    rewrite (child_at_Ok a ma 0 (Ptr b)) by (try done; now rewrite Hca).
    unfold bind at 1. cbn [is_null negb assert_].
    now rewrite (proj2 (IH _)).
  - run (deref_Ok b mb (mkState h tr) Hb). rewrite Hcb.
    unfold bind at 1. unfold emit at 1. cbn [length for_range heap trace].
    unfold bind at 1. unfold bind at 1. unfold bind at 1.
    rewrite (child_at_Ok b mb 0 (Ptr a)) by (try done; now rewrite Hcb).
    unfold bind at 1. cbn [is_null negb assert_].
    now rewrite (proj1 (IH _)).
Qed.

Lemma teardown_cycle h a b ma mb ra rb tr :
  h !! a = Some ma -> m_children ma = Ptr b :: ra ->
  h !! b = Some mb -> m_children mb = Ptr a :: rb ->
  forall fuel,
    teardown_from fuel (Ptr a) 0 (mkState h tr) = Diverge /\
    teardown_from fuel (Ptr b) 0 (mkState h tr) = Diverge.
Proof.
  intros Ha Hca Hb Hcb. induction fuel as [|fuel [IHa IHb]]; [done|].
  split; cbn [teardown_from].
  - run (deref_Ok a ma (mkState h tr) Ha). rewrite Hca.
    destruct (decide (0 < length (Ptr b :: ra))) as [_|Hge]; [|simpl in Hge; lia].
    rewrite (bind_Ok _ _ _ (Ptr b) (mkState h tr))
      by (apply (child_at_Ok a ma); [done|now rewrite Hca]).
    unfold bind at 1. now rewrite IHb.
  - run (deref_Ok b mb (mkState h tr) Hb). rewrite Hcb.
    destruct (decide (0 < length (Ptr a :: rb))) as [_|Hge]; [|simpl in Hge; lia].
    rewrite (bind_Ok _ _ _ (Ptr a) (mkState h tr))
      by (apply (child_at_Ok b mb); [done|now rewrite Hcb]).
    unfold bind at 1. now rewrite IHa.
Qed.

Lemma setup_cycle h a b ma mb ra rb tr world :
  h !! a = Some ma -> m_children ma = Ptr b :: ra ->
  h !! b = Some mb -> m_children mb = Ptr a :: rb ->
  forall fuel,
    setup_from fuel (Ptr a) world 0 (mkState h tr) = Diverge /\
    setup_from fuel (Ptr b) world 0 (mkState h tr) = Diverge.
Proof.
  intros Ha Hca Hb Hcb. induction fuel as [|fuel [IHa IHb]]; [done|].
  split; cbn [setup_from].
  - run (deref_Ok a ma (mkState h tr) Ha). rewrite Hca.
    destruct (decide (0 < length (Ptr b :: ra))) as [_|Hge]; [|simpl in Hge; lia].
    rewrite (bind_Ok _ _ _ (Ptr b) (mkState h tr))
      by (apply (child_at_Ok a ma); [done|now rewrite Hca]).
    unfold bind at 1. now rewrite IHb.
  - run (deref_Ok b mb (mkState h tr) Hb). rewrite Hcb.
    destruct (decide (0 < length (Ptr a :: rb))) as [_|Hge]; [|simpl in Hge; lia].
    rewrite (bind_Ok _ _ _ (Ptr a) (mkState h tr))
      by (apply (child_at_Ok b mb); [done|now rewrite Hcb]).
    unfold bind at 1. now rewrite IHa.
Qed.

(** X9: when two live nodes are each other's first child, no traversal
    of either returns, whatever the recursion budget: [getDescendants],
    [step] with an accepted [dt], [onVisit], [setup] and [teardown] all
    recurse without end. *)
Theorem traversals_diverge_on_cycle
    (a b : addr) (ma mb : tgModel) (ra rb : list ptr)
    (dt : double) (world : tgWorld) (st : state) :
  heap st !! a = Some ma -> m_children ma = Ptr b :: ra ->
  heap st !! b = Some mb -> m_children mb = Ptr a :: rb ->
  double_le dt dzero = false ->
  forall fuel,
    getDescendants fuel (Ptr a) st = Diverge /\
    step fuel (Ptr a) dt st = Diverge /\
    onVisit fuel (Ptr a) st = Diverge /\
    setup fuel (Ptr a) world st = Diverge /\
    teardown fuel (Ptr a) st = Diverge.
Proof.
  intros Ha Hca Hb Hcb Hdt fuel. destruct st as [h tr]. cbn [heap] in *.
  split; [|split; [|split; [|split]]].
  - apply (getDescendants_cycle h a b ma mb ra rb tr Ha Hca Hb Hcb fuel).
  - apply (step_cycle h a b ma mb ra rb dt Ha Hca Hb Hcb Hdt fuel tr).
  - apply (onVisit_cycle h a b ma mb ra rb Ha Hca Hb Hcb fuel tr).
  - apply (setup_cycle h a b ma mb ra rb tr world Ha Hca Hb Hcb fuel).
  - apply (teardown_cycle h a b ma mb ra rb tr Ha Hca Hb Hcb fuel).
Qed.

Lemma traversals_diverge_on_cycle_witness :
  getDescendants 1000 (Ptr 1) cycle_state = Diverge /\
  step 1000 (Ptr 1) one cycle_state = Diverge /\
  onVisit 1000 (Ptr 1) cycle_state = Diverge /\
  setup 1000 (Ptr 1) tt cycle_state = Diverge /\
  teardown 1000 (Ptr 1) cycle_state = Diverge.
Proof.
  apply (traversals_diverge_on_cycle 1 2 (mkModel [Ptr 2] [] [])
           (mkModel [Ptr 1] [] []) [] [] one tt cycle_state);
    reflexivity.
Defined.

(** ** Markers *)

(** The shape of a tree in the heap depends on the children alone. *)
Lemma shaped_children_only h h' t :
  (forall b, m_children <$> h' !! b = m_children <$> h !! b) ->
  shaped h t = true -> shaped h' t = true.
Proof.
  intros Hch. induction t as [a ts IH] using tree_induction. intros Hs.
  destruct (shaped_inv _ _ _ Hs) as (me & Ha & Hc & Hts).
  pose proof (Hch a) as Hcha. rewrite Ha in Hcha. cbn in Hcha.
  apply fmap_Some in Hcha as (me' & Ha' & Hc').
  apply (shaped_intro _ _ me'); [done|congruence|].
  rewrite Forall_forall in IH, Hts. apply Forall_forall. auto.
Qed.

(** X10: two calls of [addMarker] on a live node return and leave its
    markers as the old ones followed by the two new ones in call order;
    the node's children and tags and every other object are unchanged,
    so [getDescendants] on any tree of the heap returns what it returned
    before. *)
Theorem addMarker_order_and_frame
    (a : addr) (me : tgModel) (m1 m2 : abstractMarker)
    (t : tree) (fuel : nat) (st : state) :
  heap st !! a = Some me ->
  shaped (heap st) t = true ->
  height t <= fuel ->
  exists st',
    (addMarker (Ptr a) m1;; addMarker (Ptr a) m2) st = Ok tt st' /\
    getMarkers (Ptr a) st' = Ok (m_markers me ++ [m1; m2]) st' /\
    heap st' !! a =
      Some (mkModel (m_children me) (m_markers me ++ [m1; m2]) (m_tags me)) /\
    (forall b, b <> a -> heap st' !! b = heap st !! b) /\
    getDescendants fuel (Ptr (root t)) st' = Ok (map Ptr (descendants t)) st'.
Proof.
  intros Ha Hs Hh.
  set (me' := mkModel (m_children me) (m_markers me ++ [m1; m2]) (m_tags me)).
  exists (mkState (<[a := me']> (heap st)) (trace st)).
  split; [|split; [|split; [|split]]].
  - unfold addMarker. unfold bind at 1. run (deref_Ok _ _ _ Ha).
    unfold store at 1. rewrite Ha.
    unfold bind, deref, store. cbn [heap trace].
    rewrite lookup_insert_eq. cbn [heap trace m_children m_markers m_tags].
    rewrite lookup_insert_eq, insert_insert_eq. unfold me'.
    now rewrite <- app_assoc.
  - unfold getMarkers, bind, deref, ret. cbn [heap].
    now rewrite lookup_insert_eq.
  - cbn [heap]. apply lookup_insert_eq.
  - intros b Hb. cbn [heap]. now apply lookup_insert_ne.
  - apply getDescendants_shaped; [|done]. cbn [heap].
    apply (shaped_children_only (heap st)); [|done].
    intros b. destruct (decide (b = a)) as [->|Hne].
    + now rewrite lookup_insert_eq, Ha.
    + now rewrite lookup_insert_ne.
Qed.

Lemma addMarker_order_and_frame_witness :
  exists st',
    (addMarker (Ptr 2) (mkMarker 3 []);; addMarker (Ptr 2) (mkMarker 4 []))
      demo_state = Ok tt st' /\
    getMarkers (Ptr 2) st' = Ok [mkMarker 3 []; mkMarker 4 []] st' /\
    heap st' !! 2%positive =
      Some (mkModel [Ptr 5] [mkMarker 3 []; mkMarker 4 []] []) /\
    (forall b, b <> 2%positive -> heap st' !! b = heap demo_state !! b) /\
    getDescendants 3 (Ptr 1) st' = Ok [Ptr 2; Ptr 5; Ptr 3; Ptr 4] st'.
Proof.
  apply (addMarker_order_and_frame 2 (mkModel [Ptr 5] [] [])
           (mkMarker 3 []) (mkMarker 4 []) demo_tree 3 demo_state).
  - reflexivity.
  - vm_compute. reflexivity.
  - simpl. lia.
Defined.

(** ** getSenseableDescendants *)

(** X11: on a tree-shaped subtree [getSenseableDescendants] returns, in
    an unchanged state, one entry per strict descendant in the order of
    [getDescendants], followed by one entry per marker of the receiver,
    the k-th of them the address of element k of the call's own copy of
    the marker vector; markers of descendants add nothing. *)
Theorem getSenseableDescendants_layout
    (t : tree) (me : tgModel) (fuel : nat) (st : state) :
  shaped (heap st) t = true ->
  height t <= fuel ->
  heap st !! root t = Some me ->
  exists ds r,
    getDescendants fuel (Ptr (root t)) st = Ok ds st /\
    getSenseableDescendants fuel (Ptr (root t)) st = Ok r st /\
    length r = length ds + length (m_markers me) /\
    (forall i p, ds !! i = Some p -> r !! i = Some (SModel p)) /\
    (forall k, k < length (m_markers me) ->
       r !! (length ds + k) = Some (SMarker (InLocal k))).
Proof.
  intros Hs Hh Ha.
  exists (map Ptr (descendants t)),
    (map SModel (map Ptr (descendants t)) ++
     imap (fun k _ => SMarker (InLocal k)) (m_markers me)).
  split; [now apply getDescendants_shaped|].
  split; [now apply getSenseableDescendants_shaped|].
  split; [|split].
  - now rewrite length_app, length_imap, !length_map.
  - intros i p Hi. rewrite lookup_app_l.
    + change (SModel <$> (map Ptr (descendants t))) with
        (map SModel (map Ptr (descendants t))).
      now rewrite list_lookup_fmap, Hi.
    + rewrite length_map. now apply lookup_lt_Some in Hi.
  - intros k Hk.
    rewrite lookup_app_r by (rewrite length_map; lia).
    rewrite !length_map.
    replace (length (descendants t) + k - length (descendants t))
      with k by lia.
    rewrite list_lookup_imap.
    destruct (lookup_lt_is_Some_2 (m_markers me) k Hk) as [m Hm].
    now rewrite Hm.
Qed.

Lemma getSenseableDescendants_layout_witness :
  exists ds r,
    getDescendants 3 (Ptr 1) demo_state = Ok ds demo_state /\
    getSenseableDescendants 3 (Ptr 1) demo_state = Ok r demo_state /\
    length r = length ds + 1 /\
    (forall i p, ds !! i = Some p -> r !! i = Some (SModel p)) /\
    (forall k, k < 1 -> r !! (length ds + k) = Some (SMarker (InLocal k))).
Proof.
  apply (getSenseableDescendants_layout demo_tree
           (mkModel [Ptr 2; Ptr 3; Ptr 4] [mkMarker 7 []] []) 3 demo_state).
  - vm_compute. reflexivity.
  - simpl. lia.
  - reflexivity.
Defined.

(** ** toString and operator<< *)

Lemma string_app_assoc (s1 s2 s3 : string) :
  (s1 +:+ s2) +:+ s3 = s1 +:+ (s2 +:+ s3).
Proof.
  induction s1 as [|c s1 IH]; [reflexivity|].
  change (String c ((s1 +:+ s2) +:+ s3) = String c (s1 +:+ (s2 +:+ s3))).
  now rewrite IH.
Qed.

Lemma string_app_nil_r (s : string) : s +:+ "" = s.
Proof.
  induction s as [|c s IH]; [reflexivity|].
  change (String c (s +:+ "") = String c s). now rewrite IH.
Qed.

Lemma unlines_app l1 l2 : unlines (l1 ++ l2) = unlines l1 +:+ unlines l2.
Proof.
  induction l1 as [|l l1 IH]; [reflexivity|].
  cbn [app unlines foldr]. fold (unlines (l1 ++ l2)). fold (unlines l1).
  now rewrite IH, !string_app_assoc.
Qed.

Lemma toString_children_shaped show_tags rec h ts prefix os st :
  (forall c, c ∈ ts ->
     exists s, rec (Ptr (root c)) prefix st = Ok s st /\
               s +:+ endl = unlines (dump_lines show_tags h c prefix)) ->
  toString_children rec (child_ptrs ts) prefix os st =
    Ok (os +:+
        unlines (concat (map (fun c => dump_lines show_tags h c prefix) ts)))
       st.
Proof.
  revert os. induction ts as [|c ts IH]; intros os Hrec.
  - cbn. unfold ret. now rewrite string_app_nil_r.
  - destruct (Hrec c) as (s & Hs & Hlines); [apply elem_of_cons; now left|].
    cbn [child_ptrs map toString_children]. run Hs.
    fold (child_ptrs ts). rewrite IH.
    + cbn [map concat]. rewrite unlines_app, <- Hlines.
      now rewrite !string_app_assoc.
    + intros c' Hc'. apply Hrec. apply elem_of_cons. now right.
Qed.

Lemma toString_shaped show_tags fuel :
  forall t prefix st,
    shaped (heap st) t = true -> height t <= fuel ->
    exists s,
      toString show_tags fuel (Ptr (root t)) prefix st = Ok s st /\
      s +:+ endl = unlines (dump_lines show_tags (heap st) t prefix).
Proof.
  induction fuel as [|fuel IH]; intros [a ts] prefix st Hs Hh;
    [simpl in Hh; lia|].
  destruct (shaped_inv _ _ _ Hs) as (me & Ha & Hc & Hts).
  assert (forall c, c ∈ ts ->
            exists s,
              toString show_tags fuel (Ptr (root c)) (prefix +:+ "  ") st =
                Ok s st /\
              s +:+ endl =
                unlines (dump_lines show_tags (heap st) c (prefix +:+ "  ")))
    as Hkids.
  { intros c Hin. apply IH.
    - rewrite Forall_forall in Hts. now apply Hts.
    - simpl in Hh. apply (height_kid c ts); [done|lia]. }
  eexists. split.
  - cbn [root toString]. run (deref_Ok _ _ _ Ha). rewrite Hc.
    erewrite (bind_Ok _ _ _ _ _
                (toString_children_shaped show_tags _ (heap st) ts _ _ st Hkids)).
    reflexivity.
  - cbn [dump_lines]. rewrite Ha.
    rewrite !unlines_app. cbn [unlines foldr].
    rewrite !string_app_assoc. reflexivity.
Qed.

Lemma dump_lines_facts show_tags h t :
  forall prefix,
    length (dump_lines show_tags h t prefix) = 4 * size t /\
    Forall (fun l => exists r, l = prefix +:+ r)
           (dump_lines show_tags h t prefix).
Proof.
  induction t as [a ts IH] using tree_induction. intros prefix.
  cbn [dump_lines size].
  assert (length (concat (map (fun c => dump_lines show_tags h c (prefix +:+ "  ")) ts))
          = 4 * sum_list (map size ts) /\
          Forall (fun l => exists r, l = prefix +:+ r)
            (concat (map (fun c => dump_lines show_tags h c (prefix +:+ "  ")) ts)))
    as [Hlen Hpre].
  { induction IH as [|c ts Hc _ IHts]; [split; [done|constructor]|].
    destruct IHts as [Hl Hp]. destruct (Hc (prefix +:+ "  ")) as [Hlc Hpc].
    cbn [map concat]. split.
    - rewrite length_app, Hl, Hlc. simpl. lia.
    - apply Forall_app. split; [|done].
      eapply Forall_impl; [exact Hpc|]. intros l (r & ->).
      exists ("  " +:+ r). apply string_app_assoc. }
  split.
  - cbn [app length]. rewrite length_app, Hlen. simpl. lia.
  - repeat (apply Forall_cons; split; [eexists; reflexivity|]).
    apply Forall_app. split; [done|].
    repeat (apply Forall_cons; split; [eexists; reflexivity|]).
    constructor.
Qed.

(** X12: on a tree-shaped subtree [toString(prefix)] returns without
    changing the state; its text, once a newline is put after the last
    line, is the dump of the tree line by line: four lines per node
    (header, children label, tags, closing parenthesis), the lines of a
    child two spaces deeper than its parent's, and every line beginning
    with [prefix]. *)
Theorem toString_dumps_tree
    (show_tags : tgTags -> string) (t : tree) (prefix : string)
    (fuel : nat) (st : state) :
  shaped (heap st) t = true ->
  height t <= fuel ->
  exists s,
    toString show_tags fuel (Ptr (root t)) prefix st = Ok s st /\
    s +:+ endl = unlines (dump_lines show_tags (heap st) t prefix) /\
    length (dump_lines show_tags (heap st) t prefix) = 4 * size t /\
    Forall (fun l => exists r, l = prefix +:+ r)
           (dump_lines show_tags (heap st) t prefix).
Proof.
  intros Hs Hh.
  destruct (toString_shaped show_tags fuel t prefix st Hs Hh) as (s & Hrun & Hl).
  exists s. split; [done|]. split; [done|]. apply dump_lines_facts.
Qed.

(** X13: [operator<<] on a tree-shaped model appends to the stream
    exactly the lines of the dump at the default prefix, each line
    followed by a newline, and leaves the models as they were. *)
Theorem stream_out_appends_dump
    (show_tags : tgTags -> string) (default_prefix : string)
    (t : tree) (os : string) (fuel : nat) (st : state) :
  shaped (heap st) t = true ->
  height t <= fuel ->
  stream_out show_tags default_prefix fuel os (Ptr (root t)) st =
    Ok (os +:+ unlines (dump_lines show_tags (heap st) t default_prefix)) st.
Proof.
  intros Hs Hh.
  destruct (toString_shaped show_tags fuel t default_prefix st Hs Hh)
    as (s & Hrun & Hl).
  unfold stream_out. run Hrun. unfold ret.
  now rewrite string_app_assoc, Hl.
Qed.

Lemma toString_dumps_tree_witness :
  exists s,
    toString show_labels 3 (Ptr 2) "" scenario_state = Ok s scenario_state /\
    s +:+ endl =
      unlines (dump_lines show_labels (heap scenario_state)
                 (Node 2 [Node 3 []]) "") /\
    length (dump_lines show_labels (heap scenario_state)
              (Node 2 [Node 3 []]) "") = 4 * size (Node 2 [Node 3 []]) /\
    Forall (fun l => exists r, l = "" +:+ r)
           (dump_lines show_labels (heap scenario_state)
              (Node 2 [Node 3 []]) "").
Proof.
  apply (toString_dumps_tree show_labels (Node 2 [Node 3 []]) "" 3
           scenario_state).
  - vm_compute. reflexivity.
  - simpl. lia.
Defined.

Lemma stream_out_appends_dump_witness :
  stream_out show_labels "" 3 "model: " (Ptr 3) scenario_state =
    Ok ("model: " +:+
        unlines ["tgModel("; "  Children:"; "  Tags: []"; ")"])
       scenario_state.
Proof.
  apply (stream_out_appends_dump show_labels "" (Node 3 []) "model: " 3
           scenario_state).
  - vm_compute. reflexivity.
  - simpl. lia.
Defined.

(** ** A child with two parents *)

(** X14: [addChild] looks for the candidate under the receiver only, so
    one leaf can end up as the child of two siblings.  On such a
    structure [teardown] of the common parent releases the leaf while
    tearing down the first sibling, and then calls [teardown] on the
    released leaf through the second sibling: undefined behaviour. *)
Theorem teardown_shared_child_undefined
    (a x y c : addr) (ma mx my mc : tgModel) (fuel : nat) (st : state) :
  heap st !! a = Some ma -> m_children ma = [Ptr x; Ptr y] ->
  heap st !! x = Some mx -> m_children mx = [Ptr c] ->
  heap st !! y = Some my -> m_children my = [Ptr c] ->
  heap st !! c = Some mc -> m_children mc = [] ->
  NoDup [a; x; y; c] ->
  teardown (4 + fuel) (Ptr a) st = Undefined.
Proof.
  intros Ha Hca Hx Hcx Hy Hcy Hc Hcc Hnd. destruct st as [h tr].
  cbn [heap] in *.
  assert (a <> x /\ a <> y /\ a <> c /\ x <> y /\ x <> c /\ y <> c)
    as (Hax & Hay & Hac & Hxy & Hxc & Hyc).
  { rewrite !NoDup_cons, !not_elem_of_cons in Hnd. naive_solver. }
  (* the first sibling and the leaf form a tree of their own *)
  destruct (teardown_tree (3 + fuel) (Node x [Node c []]) h tr)
    as (h1 & mx' & Hx' & Hrun1 & Hx1 & Hgone1 & Hframe1).
  { simpl. rewrite Hx, Hc, Hcx, Hcc.
    now rewrite !bool_decide_eq_true_2 by reflexivity. }
  { apply bool_decide_eq_true. apply NoDup_cons. split.
    - intros Hin. apply list_elem_of_singleton in Hin. done.
    - apply NoDup_singleton. }
  { simpl. lia. }
  cbn [root] in Hx', Hrun1, Hx1. rewrite Hx in Hx'. injection Hx' as <-.
  assert (forall b, b <> x -> b <> c -> h1 !! b = h !! b) as Hother.
  { intros b Hbx Hbc. apply Hframe1. unfold nodes. simpl.
    intros Hin. apply elem_of_cons in Hin as [->|Hin]; [done|].
    apply elem_of_cons in Hin as [->|Hin]; [done|].
    now apply elem_of_nil in Hin. }
  assert (h1 !! c = None) as Hc1.
  { apply Hgone1. simpl. apply elem_of_cons. now left. }
  assert (h1 !! a = Some ma) as Ha1 by (rewrite Hother; done).
  set (h2 := delete x h1).
  assert (h2 !! a = Some ma) as Ha2 by (unfold h2; now rewrite lookup_delete_ne).
  assert (h2 !! y = Some my) as Hy2.
  { unfold h2. rewrite lookup_delete_ne by done. rewrite Hother; done. }
  assert (h2 !! c = None) as Hc2 by (unfold h2; now rewrite lookup_delete_ne).
  unfold teardown. change (4 + fuel) with (S (S (S (S fuel)))).
  cbn [teardown_from].
  run (deref_Ok a ma (mkState h tr) Ha). rewrite Hca.
  destruct (decide (0 < length [Ptr x; Ptr y])) as [_|Hge]; [|simpl in Hge; lia].
  rewrite (bind_Ok _ _ _ (Ptr x) (mkState h tr))
    by (apply (child_at_Ok a ma); [done|now rewrite Hca]).
  unfold teardown in Hrun1. change (3 + fuel) with (S (S (S fuel))) in Hrun1.
  run Hrun1.
  rewrite (bind_Ok _ _ _ (Ptr x) (mkState h1 tr))
    by (apply (child_at_Ok a ma); [done|now rewrite Hca]).
  run (delete_leaf (S (S fuel)) x (cleared mx) h1 tr Hx1 eq_refl).
  fold h2.
  (* second iteration of the loop of the common parent *)
  run (deref_Ok a ma (mkState h2 tr) Ha2). rewrite Hca.
  destruct (decide (1 < length [Ptr x; Ptr y])) as [_|Hge]; [|simpl in Hge; lia].
  rewrite (bind_Ok _ _ _ (Ptr y) (mkState h2 tr))
    by (apply (child_at_Ok a ma); [done|now rewrite Hca]).
  unfold bind at 1.
  run (deref_Ok y my (mkState h2 tr) Hy2). rewrite Hcy.
  destruct (decide (0 < length [Ptr c])) as [_|Hge]; [|simpl in Hge; lia].
  rewrite (bind_Ok _ _ _ (Ptr c) (mkState h2 tr))
    by (apply (child_at_Ok y my); [done|now rewrite Hcy]).
  unfold bind at 1. unfold bind at 1. unfold deref. cbn [heap].
  now rewrite Hc2.
Qed.

Lemma teardown_shared_child_undefined_witness :
  teardown 4 (Ptr 1)
    (mkState
       (<[1%positive := mkModel [Ptr 2; Ptr 3] [] []]>
          (<[2%positive := mkModel [Ptr 4] [] []]>
             (<[3%positive := mkModel [Ptr 4] [] []]>
                (<[4%positive := mkModel [] [] []]> ∅)))) [])
  = Undefined.
Proof.
  apply (teardown_shared_child_undefined 1 2 3 4
           (mkModel [Ptr 2; Ptr 3] [] []) (mkModel [Ptr 4] [] [])
           (mkModel [Ptr 4] [] []) (mkModel [] [] []) 0).
  - reflexivity.
  - reflexivity.
  - reflexivity.
  - reflexivity.
  - reflexivity.
  - reflexivity.
  - reflexivity.
  - reflexivity.
  - apply (bool_decide_unpack _). vm_compute. exact I.
Defined.
